(** * Optimized-function independence checking of [serializer/functions.js]

    A shallow embedding of the class [Functions] of the serializer: the
    capture of the effects of every optimized function (including the
    optimized functions that an optimized function declares itself), and the
    all-pairs check that no optimized function reads what another one
    writes.

    The abstract interpreter that the class queries ([Realm],
    [evaluatePure], [withEffectsAppliedInGlobalEnv], the property-access
    hooks) is external to the file; it is modelled by a small language of
    candidate bodies ([Stmt]) evaluated against a heap of property
    bindings. *)

From Stdlib Require Import List Bool Arith Lia String DecimalString.
Import ListNotations.

(** ** Identities *)

Definition FunId := nat.
Definition ObjId := nat.
(** Source locations ([BabelNodeSourceLocation]) are compared by identity. *)
Definition Loc := nat.
Definition ArgModel := nat.

(** A property binding, identified by its object and its key. *)
Definition PropertyBinding := (ObjId * string)%type.

Definition pb_eqb (a b : PropertyBinding) : bool :=
  Nat.eqb (fst a) (fst b) && String.eqb (snd a) (snd b).

(** ** Values *)

(** The elements an abstract value may stand for. *)
Inductive Elem :=
| EFun (f : FunId)
| EEmpty
| EUndefined
| EOther (o : ObjId).

Inductive Value :=
| VFun (f : FunId)
| VObject (o : ObjId)
| VEmpty
| VUndefined
| VAbstract (id : nat) (elements : option (list Elem)).

Definition elem_value (e : Elem) : Value :=
  match e with
  | EFun f => VFun f
  | EEmpty => VEmpty
  | EUndefined => VUndefined
  | EOther o => VObject o
  end.

(** Identity of map keys ([Map<Value, ...>] compares by reference). *)
Definition value_eqb (a b : Value) : bool :=
  match a, b with
  | VFun f, VFun g => Nat.eqb f g
  | VObject o, VObject p => Nat.eqb o p
  | VEmpty, VEmpty => true
  | VUndefined, VUndefined => true
  | VAbstract i _, VAbstract j _ => Nat.eqb i j
  | _, _ => false
  end.

(** ** Candidate bodies: the substrate's evaluation *)

(** Formal parameters as Babel parses them. *)
Inductive Param :=
| PIdentifier (name : string)
| PObjectPattern
| PArrayPattern
| PAssignmentPattern (name : string)
| PRestElement (name : string).

(** Statements of an optimized function's body, as far as the checker can
    observe them. *)
Inductive Stmt :=
| SGet (o : ObjId) (p : string) (loc : option Loc)     (* read of o.p *)
| SSet (o : ObjId) (p : string) (v : nat) (loc : option Loc)  (* o.p = v *)
| SOwnKeys (o : ObjId) (loc : Loc)                     (* enumeration of o *)
| SCreateFunction (f : FunId)                          (* function f created *)
| SOptimize (v : Value) (am : option ArgModel)         (* __optimize(v, am) *)
| SAssume (o : ObjId) (p : string) (v : nat) (loc : option Loc)
    (* if (o.p !== v) return; *)
| SThrow (loc : Loc)                                   (* throw *)
| SThrowIfAbstract (loc : Loc).                        (* if (arg) throw *)

Record FunctionValue := mkFunctionValue {
  fid : FunId;
  formalParameters : list Param;
  body : list Stmt;
  (** [value.isValid()]: false when the value was created in a speculative
      context whose effects were discarded *)
  isValid : bool;
  expressionLocation : option Loc;
  (** [functionExpressions.get(f) || f.intrinsicName] *)
  knownName : option string
}.

(** The [length] that FunctionInitialize gives a function: it counts the
    formal parameters before the first [AssignmentPattern] (a parameter
    with a default); a rest parameter is counted. *)
Fixpoint expectedArgumentCount (ps : list Param) : nat :=
  match ps with
  | [] => 0
  | PAssignmentPattern _ :: _ => 0
  | _ :: r => S (expectedArgumentCount r)
  end.

Definition getLength (fv : FunctionValue) : nat :=
  expectedArgumentCount (formalParameters fv).

Definition functionName (fv : FunctionValue) : string :=
  match knownName fv with
  | Some n => n
  | None => "(unknown function)"
  end.

(** The program under analysis: its function values and the objects that
    refuse serialization. *)
Record Program := mkProgram {
  functions : list FunctionValue;
  refusedObjects : list ObjId
}.

(** Heap of property bindings, newest binding first. *)
Definition Heap := list (PropertyBinding * nat).

Fixpoint heap_get (h : Heap) (pb : PropertyBinding) : nat :=
  match h with
  | [] => 0
  | (k, v) :: r => if pb_eqb k pb then v else heap_get r pb
  end.

Definition heap_set (h : Heap) (pb : PropertyBinding) (v : nat) : Heap :=
  (pb, v) :: h.

Inductive Completion :=
| CNormal                 (* a Value *)
| CThrow (loc : Loc)      (* ThrowCompletion *)
| CPossiblyNormal.        (* PossiblyNormalCompletion *)

Record Effects := mkEffects {
  result : Completion;
  modifiedProperties : list (PropertyBinding * nat);
  createdObjects : list FunId
}.

(** The accesses reported to [realm.reportPropertyAccess] and
    [realm.reportObjectGetOwnProperties], each at [realm.currentLocation]. *)
Inductive Access :=
| AProp (pb : PropertyBinding) (loc : option Loc)
| AEnum (o : ObjId) (loc : Loc).

Record Run := mkRun {
  runEffects : Effects;
  runAccesses : list Access;
  runRegistered : list (Value * option ArgModel)
}.

Definition emptyRun : Run := mkRun (mkEffects CNormal [] []) [] [].

Definition addAccess (a : Access) (r : Run) : Run :=
  mkRun (runEffects r) (a :: runAccesses r) (runRegistered r).

Definition addWrite (w : PropertyBinding * nat) (r : Run) : Run :=
  let e := runEffects r in
  mkRun (mkEffects (result e) (w :: modifiedProperties e) (createdObjects e))
        (runAccesses r) (runRegistered r).

Definition addCreated (f : FunId) (r : Run) : Run :=
  let e := runEffects r in
  mkRun (mkEffects (result e) (modifiedProperties e) (f :: createdObjects e))
        (runAccesses r) (runRegistered r).

Definition addRegistered (x : Value * option ArgModel) (r : Run) : Run :=
  mkRun (runEffects r) (runAccesses r) (x :: runRegistered r).

Definition possiblyAbrupt (r : Run) : Run :=
  let e := runEffects r in
  let res := match result e with CNormal => CPossiblyNormal | c => c end in
  mkRun (mkEffects res (modifiedProperties e) (createdObjects e))
        (runAccesses r) (runRegistered r).

(** Evaluation of a body with placeholder arguments against a heap. *)
Fixpoint exec (h : Heap) (ss : list Stmt) : Run :=
  match ss with
  | [] => emptyRun
  | SGet o p loc :: r => addAccess (AProp (o, p) loc) (exec h r)
  | SSet o p v loc :: r =>
      (* [recordModifiedProperty] reports the write through
         [reportPropertyAccess] *)
      addAccess (AProp (o, p) loc) (addWrite ((o, p), v) (exec (heap_set h (o, p) v) r))
  | SOwnKeys o loc :: r => addAccess (AEnum o loc) (exec h r)
  | SCreateFunction f :: r => addCreated f (exec h r)
  | SOptimize v am :: r => addRegistered (v, am) (exec h r)
  | SAssume o p v loc :: r =>
      addAccess (AProp (o, p) loc)
                (if Nat.eqb (heap_get h (o, p)) v then exec h r else emptyRun)
  | SThrow loc :: _ => mkRun (mkEffects (CThrow loc) [] []) [] []
  | SThrowIfAbstract loc :: r => possiblyAbrupt (exec h r)
  end.

Definition applyEffects (h : Heap) (e : Effects) : Heap :=
  fold_left (fun h' w => heap_set h' (fst w) (snd w)) (modifiedProperties e) h.

(** ** Diagnostics and the realm state *)

Inductive Severity := Warning | RecoverableError | FatalErrorSeverity.

Record CompilerDiagnostic := mkCompilerDiagnostic {
  message : string;
  location : option Loc;
  errorCode : string;
  severity : Severity
}.

(** Observable events, in the order they happen. *)
Inductive Event :=
| EvHandleError (d : CompilerDiagnostic)        (* realm.handleError(d) *)
| EvBeginOptimizing (id : nat) (f : FunId)      (* tracer.beginOptimizingFunction *)
| EvEndOptimizing (id : nat)                    (* tracer.endOptimizingFunction *)
| EvEvaluatePure (f : FunId)                    (* capture of f starts *)
| EvReplay (f : FunId) (baseline : Heap).       (* replay of f on a heap *)

(** Exceptions: [FatalError], a failed [invariant], and exhaustion of the
    recursion bound of the model. *)
Inductive Exn := FatalError | InvariantViolation | OutOfFuel.

Record AdditionalFunctionEffects := mkAdditionalFunctionEffects {
  effects : Effects;
  parentAdditionalFunction : option FunId
}.

(** The mutable state: the realm's fields the class touches, the fields of
    [Functions], and the local variables of
    [checkThatFunctionsAreIndependent] shared by its closures. *)
Record St := mkSt {
  optimizedFunctions : list (Value * option ArgModel);   (* realm.optimizedFunctions *)
  heap : Heap;                                           (* global environment *)
  writeEffects : list (FunId * AdditionalFunctionEffects);
  optimizedFunctionId : nat;                             (* this._optimizedFunctionId *)
  additionalFunctionStack : list FunId;                  (* top first *)
  additionalFunctions : list FunId;                      (* a Set, insertion ordered *)
  errorHandler : CompilerDiagnostic -> bool;             (* true: "Recover" *)
  log : list Event
}.

Definition set_optimizedFunctions l s :=
  mkSt l (heap s) (writeEffects s) (optimizedFunctionId s)
       (additionalFunctionStack s) (additionalFunctions s) (errorHandler s) (log s).
Definition set_heap h s :=
  mkSt (optimizedFunctions s) h (writeEffects s) (optimizedFunctionId s)
       (additionalFunctionStack s) (additionalFunctions s) (errorHandler s) (log s).
Definition set_writeEffects w s :=
  mkSt (optimizedFunctions s) (heap s) w (optimizedFunctionId s)
       (additionalFunctionStack s) (additionalFunctions s) (errorHandler s) (log s).
Definition set_optimizedFunctionId n s :=
  mkSt (optimizedFunctions s) (heap s) (writeEffects s) n
       (additionalFunctionStack s) (additionalFunctions s) (errorHandler s) (log s).
Definition set_additionalFunctionStack l s :=
  mkSt (optimizedFunctions s) (heap s) (writeEffects s) (optimizedFunctionId s)
       l (additionalFunctions s) (errorHandler s) (log s).
Definition set_additionalFunctions l s :=
  mkSt (optimizedFunctions s) (heap s) (writeEffects s) (optimizedFunctionId s)
       (additionalFunctionStack s) l (errorHandler s) (log s).
Definition push_log ev s :=
  mkSt (optimizedFunctions s) (heap s) (writeEffects s) (optimizedFunctionId s)
       (additionalFunctionStack s) (additionalFunctions s) (errorHandler s)
       (log s ++ [ev]).

(** ** A state and exception monad *)

Inductive Res (A : Type) : Type := Ok (a : A) | Err (e : Exn).
Arguments Ok {A} a.
Arguments Err {A} e.

Definition M (A : Type) : Type := St -> Res A * St.

Definition ret {A} (a : A) : M A := fun s => (Ok a, s).
Definition bind {A B} (m : M A) (k : A -> M B) : M B :=
  fun s => match m s with
           | (Ok a, s') => k a s'
           | (Err e, s') => (Err e, s')
           end.
Definition throw {A} (e : Exn) : M A := fun s => (Err e, s).
Definition get : M St := fun s => (Ok s, s).
Definition modify (f : St -> St) : M unit := fun s => (Ok tt, f s).
Definition invariant (b : bool) : M unit :=
  if b then ret tt else throw InvariantViolation.

Notation "'let*' x ':=' m 'in' k" := (bind m (fun x => k))
  (at level 200, x name, m at level 100, k at level 200).
Notation "m ;; k" := (bind m (fun _ : unit => k)) (at level 100, right associativity).

Fixpoint forEach {A} (l : list A) (f : A -> M unit) : M unit :=
  match l with
  | [] => ret tt
  | x :: r => f x ;; forEach r f
  end.

Definition emit (ev : Event) : M unit := modify (push_log ev).

(** [realm.handleError(d)]: logs the diagnostic, returns whether the
    handler answered "Recover". *)
Definition handleError (d : CompilerDiagnostic) : M bool :=
  fun s => (Ok (errorHandler s d), push_log (EvHandleError d) s).

(** ** Maps and sets as the code uses them *)

(** [Map.prototype.set] on [Map<Value, _>]: in place if present, else
    appended. *)
Fixpoint map_set {V} (k : Value) (v : V) (m : list (Value * V)) : list (Value * V) :=
  match m with
  | [] => [(k, v)]
  | (k', v') :: r => if value_eqb k k' then (k', v) :: r else (k', v') :: map_set k v r
  end.

(** Maps keyed by function values or locations (identities as [nat]). *)
Fixpoint nmap_get {V} (k : nat) (m : list (nat * V)) : option V :=
  match m with
  | [] => None
  | (k', v) :: r => if Nat.eqb k k' then Some v else nmap_get k r
  end.

Definition nmap_has {V} (k : nat) (m : list (nat * V)) : bool :=
  match nmap_get k m with Some _ => true | None => false end.

Fixpoint nmap_set {V} (k : nat) (v : V) (m : list (nat * V)) : list (nat * V) :=
  match m with
  | [] => [(k, v)]
  | (k', v') :: r => if Nat.eqb k k' then (k', v) :: r else (k', v') :: nmap_set k v r
  end.

(** [Set.prototype.add] *)
Definition set_add (x : nat) (l : list nat) : list nat :=
  if existsb (Nat.eqb x) l then l else l ++ [x].

(** [new Set(l)] *)
Definition set_of_list (l : list nat) : list nat :=
  fold_left (fun acc x => set_add x acc) l [].

(** ** The test of line 324, at the level of JavaScript values

    [e1.result instanceof Completion && !e1.result instanceof
    PossiblyNormalCompletion]: the unary [!] binds tighter than
    [instanceof]. *)

Inductive JSClass :=
| ClsValue | ClsCompletion | ClsAbruptCompletion | ClsThrowCompletion
| ClsNormalCompletion | ClsPossiblyNormalCompletion.

Definition JSClass_eqb (a b : JSClass) : bool :=
  match a, b with
  | ClsValue, ClsValue | ClsCompletion, ClsCompletion
  | ClsAbruptCompletion, ClsAbruptCompletion
  | ClsThrowCompletion, ClsThrowCompletion
  | ClsNormalCompletion, ClsNormalCompletion
  | ClsPossiblyNormalCompletion, ClsPossiblyNormalCompletion => true
  | _, _ => false
  end.

Inductive JSVal :=
| JSBool (b : bool)
| JSObject (prototypeChain : list JSClass).

Definition instanceOf (v : JSVal) (c : JSClass) : bool :=
  match v with
  | JSBool _ => false
  | JSObject chain => existsb (JSClass_eqb c) chain
  end.

Definition truthy (v : JSVal) : bool :=
  match v with JSBool b => b | JSObject _ => true end.

Definition jsNot (v : JSVal) : JSVal := JSBool (negb (truthy v)).

Definition jsOfResult (c : Completion) : JSVal :=
  match c with
  | CNormal => JSObject [ClsValue]
  | CThrow _ => JSObject [ClsThrowCompletion; ClsAbruptCompletion; ClsCompletion]
  | CPossiblyNormal =>
      JSObject [ClsPossiblyNormalCompletion; ClsNormalCompletion; ClsCompletion]
  end.

(** The test as written in the source. *)
Definition mayTerminateAbruptlyAsWritten (c : Completion) : bool :=
  instanceOf (jsOfResult c) ClsCompletion
  && instanceOf (jsNot (jsOfResult c)) ClsPossiblyNormalCompletion.

(** The reading the spec (section 9) takes as intended: a completion that
    is not possibly normal. *)
Definition mayTerminateAbruptlyIntended (c : Completion) : bool :=
  instanceOf (jsOfResult c) ClsCompletion
  && negb (instanceOf (jsOfResult c) ClsPossiblyNormalCompletion).

Definition completionLocation (c : Completion) : option Loc :=
  match c with CThrow l => Some l | _ => None end.

(** ** The class [Functions] *)

Section Functions.

Variable P : Program.

Definition lookupFunction (f : FunId) : option FunctionValue :=
  find (fun fv => Nat.eqb (fid fv) f) (functions P).

Definition _unwrapAbstract (value : Value) : Value :=
  match value with
  | VAbstract _ (Some elements) =>
      match filter (fun e => match e with EEmpty | EUndefined => false | _ => true end)
                   elements with
      | [e] => elem_value e
      | _ => value
      end
  | _ => value
  end.

Definition speculativeDiagnostic (fv : FunctionValue) : CompilerDiagnostic :=
  mkCompilerDiagnostic "Called __optimize on function in failed speculative context"
    (expressionLocation fv) "PP1008" RecoverableError.

(** The loop of [_generateOptimizedFunctionsFromRealm]. *)
Fixpoint generateOptimizedFunctions (entries : list (Value * option ArgModel))
  : M (list (FunId * option ArgModel)) :=
  match entries with
  | [] => ret []
  | (valueToOptimize, argModel) :: rest =>
      let value := match valueToOptimize with
                   | VAbstract _ _ => _unwrapAbstract valueToOptimize
                   | _ => valueToOptimize
                   end in
      match value with
      | VFun f =>
          match lookupFunction f with
          | None => throw InvariantViolation
          | Some fv =>
              if isValid fv then
                let* r := generateOptimizedFunctions rest in
                ret ((f, argModel) :: r)
              else
                let* recover := handleError (speculativeDiagnostic fv) in
                if recover then generateOptimizedFunctions rest else throw FatalError
          end
      | _ => throw InvariantViolation
      end
  end.

Definition _generateOptimizedFunctionsFromRealm : M (list (FunId * option ArgModel)) :=
  let* s := get in
  generateOptimizedFunctions (optimizedFunctions s).

Definition nonIdentifierDiagnostic (fv : FunctionValue) : CompilerDiagnostic :=
  mkCompilerDiagnostic "Non-identifier args to additional functions unsupported"
    (expressionLocation fv) "PP1005" FatalErrorSeverity.

(** The loop over [$FormalParameters]; placeholder arguments carry no
    information the checker uses. *)
Fixpoint checkFormalParameters (fv : FunctionValue) (params : list Param) : M unit :=
  match params with
  | [] => ret tt
  | PIdentifier _ :: r => checkFormalParameters fv r
  | _ :: _ =>
      let* _ := handleError (nonIdentifierDiagnostic fv) in
      throw FatalError
  end.

(** [_callOfFunction]: the call it returns is represented by the function
    value it calls. *)
Definition _callOfFunction (f : FunId) (argModel : option ArgModel) : M FunctionValue :=
  match lookupFunction f with
  | None => throw InvariantViolation
  | Some funcValue =>
      let numArgs := getLength funcValue in
      (if Nat.ltb 0 numArgs
       then checkFormalParameters funcValue (formalParameters funcValue)
       else ret tt) ;;
      ret funcValue
  end.

Definition mergeOptimizedFunctions (old cur : list (Value * option ArgModel)) :=
  fold_left (fun m kv => map_set (fst kv) (snd kv) m) old cur.

Definition _withEmptyOptimizedFunctionList (entry : FunId * option ArgModel)
  (func : FunId -> option ArgModel -> M unit) : M unit :=
  let (value, argModel) := entry in
  let* s := get in
  let oldRealmOptimizedFunctions := optimizedFunctions s in
  modify (set_optimizedFunctions []) ;;
  let currentOptimizedFunctionId := optimizedFunctionId s in
  modify (set_optimizedFunctionId (S currentOptimizedFunctionId)) ;;
  invariant (match lookupFunction value with Some _ => true | None => false end) ;;
  emit (EvBeginOptimizing currentOptimizedFunctionId value) ;;
  func value argModel ;;
  emit (EvEndOptimizing currentOptimizedFunctionId) ;;
  modify (fun s' => set_optimizedFunctions
            (mergeOptimizedFunctions oldRealmOptimizedFunctions (optimizedFunctions s')) s').

Fixpoint getDeclaringAdditionalFunction (we : list (FunId * AdditionalFunctionEffects))
  (functionValue : FunId) : option FunId :=
  match we with
  | [] => None
  | (additionalFunctionValue, additionalEffects) :: r =>
      if existsb (Nat.eqb functionValue) (createdObjects (effects additionalEffects))
      then Some additionalFunctionValue
      else getDeclaringAdditionalFunction r functionValue
  end.

(** [realm.evaluatePure(() => realm.evaluateForEffectsInGlobalEnv(call))]:
    evaluates the body on the current heap; [__optimize] calls register in
    [realm.optimizedFunctions] as they run. The side-effect warnings (PP1007)
    are not represented. *)
Definition evaluatePure (fv : FunctionValue) : M Effects :=
  let* s := get in
  let run := exec (heap s) (body fv) in
  emit (EvEvaluatePure (fid fv)) ;;
  modify (fun s' => set_optimizedFunctions
            (fold_left (fun m kv => map_set (fst kv) (snd kv) m)
                       (runRegistered run) (optimizedFunctions s')) s') ;;
  ret (runEffects run).

(** [withEffectsAppliedInGlobalEnv(body, e)]: [body] runs with [e] applied
    to the global environment, which is restored afterwards. *)
Definition withEffectsAppliedInGlobalEnv {A} (e : Effects) (b : M A) : M A :=
  fun s => let h := heap s in
           let (r, s') := b (set_heap (applyEffects h e) s) in
           (r, set_heap h s').

Definition doubleOptimizationDiagnostic (fv : FunctionValue) : CompilerDiagnostic :=
  mkCompilerDiagnostic
    "Trying to optimize a function with two parent optimized functions, which is not currently allowed."
    (expressionLocation fv) "PP1009" FatalErrorSeverity.

(** Lines 258-291 of [recordWriteEffectsForOptimizedFunctionAndNestedFunctions]:
    capture, then record in [writeEffects]. *)
Definition captureAndRecord (functionValue : FunId) (argModel : option ArgModel)
  : M AdditionalFunctionEffects :=
  modify (fun s => set_additionalFunctionStack
                     (functionValue :: additionalFunctionStack s) s) ;;
  let* call := _callOfFunction functionValue argModel in
  let* eff := evaluatePure call in
  let* s := get in
  let additionalFunctionEffects :=
    mkAdditionalFunctionEffects eff
      (getDeclaringAdditionalFunction (writeEffects s) functionValue) in
  (if nmap_has functionValue (writeEffects s) then
     let* recover := handleError (doubleOptimizationDiagnostic call) in
     if recover then ret tt else throw FatalError
   else ret tt) ;;
  modify (fun s' => set_writeEffects
            (nmap_set functionValue additionalFunctionEffects (writeEffects s')) s') ;;
  ret additionalFunctionEffects.

(** The recursive closure; [fuel] bounds the nesting depth of the model. *)
Fixpoint recordWriteEffectsForOptimizedFunctionAndNestedFunctions (fuel : nat)
  (functionValue : FunId) (argModel : option ArgModel) {struct fuel} : M unit :=
  match fuel with
  | 0 => throw OutOfFuel
  | S fuel' =>
      let* additionalFunctionEffects := captureAndRecord functionValue argModel in
      withEffectsAppliedInGlobalEnv (effects additionalFunctionEffects)
        (let* newOptFuncs := _generateOptimizedFunctionsFromRealm in
         forEach newOptFuncs (fun newEntry =>
           modify (fun s => set_additionalFunctions
                              (set_add (fst newEntry) (additionalFunctions s)) s) ;;
           _withEmptyOptimizedFunctionList newEntry
             (recordWriteEffectsForOptimizedFunctionAndNestedFunctions fuel'))) ;;
      let* s := get in
      match additionalFunctionStack s with
      | [] => throw InvariantViolation
      | top :: rest =>
          modify (set_additionalFunctionStack rest) ;;
          invariant (Nat.eqb top functionValue)
      end
  end.

(** Lines 236-312: the capture phase. *)
Definition captureOptimizedFunctions (fuel : nat) : M unit :=
  let* additionalFunctionsToProcess := _generateOptimizedFunctionsFromRealm in
  modify (set_additionalFunctionStack []) ;;
  modify (set_additionalFunctions (set_of_list (map fst additionalFunctionsToProcess))) ;;
  forEach additionalFunctionsToProcess (fun funcObject =>
    _withEmptyOptimizedFunctionList funcObject
      (recordWriteEffectsForOptimizedFunctionAndNestedFunctions fuel)) ;;
  let* s := get in
  invariant (match additionalFunctionStack s with [] => true | _ => false end).

(** ** Conflict detection *)

Definition Conflicts := list (Loc * CompilerDiagnostic).

(** [ObjectValue.refuseSerializationOnPropertyBinding] *)
Definition refuseSerializationOnPropertyBinding (pb : PropertyBinding) : bool :=
  existsb (Nat.eqb (fst pb)) (refusedObjects P).

Definition conflictDiagnostic (fname : string) (loc : Loc) : CompilerDiagnostic :=
  mkCompilerDiagnostic
    ("Property access conflicts with write in optimized function " ++ fname)
    (Some loc) "PP1003" FatalErrorSeverity.

(** The two hooks [reportWriteConflicts] installs, applied to one
    reported access. *)
Definition reportAccess (fname : string) (writtenObjects : list ObjId)
  (pbs : list (PropertyBinding * nat)) (conflicts : Conflicts) (a : Access) : Conflicts :=
  match a with
  | AEnum ob loc =>
      if existsb (Nat.eqb ob) writtenObjects && negb (nmap_has loc conflicts)
      then nmap_set loc (conflictDiagnostic fname loc) conflicts
      else conflicts
  | AProp pb oloc =>
      if refuseSerializationOnPropertyBinding pb then conflicts
      else match oloc with
           | None => conflicts
           | Some loc =>
               if existsb (pb_eqb pb) (map fst pbs) && negb (nmap_has loc conflicts)
               then nmap_set loc (conflictDiagnostic fname loc) conflicts
               else conflicts
           end
  end.

(** [reportWriteConflicts]: replays [call2] on the current heap with the
    hooks installed; the replay's effects are not kept. *)
Definition reportWriteConflicts (fname : string) (conflicts : Conflicts)
  (pbs : list (PropertyBinding * nat)) (call2 : FunctionValue) : M Conflicts :=
  let writtenObjects := map (fun w => fst (fst w)) pbs in
  let* s := get in
  let run := exec (heap s) (body call2) in
  emit (EvReplay (fid call2) (heap s)) ;;
  modify (fun s' => set_optimizedFunctions
            (fold_left (fun m kv => map_set (fst kv) (snd kv) m)
                       (runRegistered run) (optimizedFunctions s')) s') ;;
  ret (fold_left (reportAccess fname writtenObjects pbs) (runAccesses run) conflicts).

(** The body of the inner loop (lines 335-349) for [fun2]. *)
Definition checkPair (fun1Name : string) (e1 : Effects) (fun2 : FunId)
  (conflicts : Conflicts) : M Conflicts :=
  let reportFn :=
    let* call2 := _callOfFunction fun2 None in
    reportWriteConflicts fun1Name conflicts (modifiedProperties e1) call2 in
  let* s := get in
  match nmap_get fun2 (writeEffects s) with
  | None => throw InvariantViolation
  | Some fun2Effects =>
      match parentAdditionalFunction fun2Effects with
      | Some parent =>
          match nmap_get parent (writeEffects s) with
          | None => throw InvariantViolation
          | Some parentEffects => withEffectsAppliedInGlobalEnv (effects parentEffects) reportFn
          end
      | None => reportFn
      end
  end.

Fixpoint checkPairs (fun1 : FunId) (fun1Name : string) (e1 : Effects)
  (fs : list FunId) (conflicts : Conflicts) : M Conflicts :=
  match fs with
  | [] => ret conflicts
  | fun2 :: r =>
      if Nat.eqb fun1 fun2 then checkPairs fun1 fun1Name e1 r conflicts
      else let* c := checkPair fun1Name e1 fun2 conflicts in
           checkPairs fun1 fun1Name e1 r c
  end.

Definition abruptDiagnostic (fun1Name : string) (e1 : Effects) : CompilerDiagnostic :=
  mkCompilerDiagnostic ("Additional function " ++ fun1Name ++ " may terminate abruptly")
    (completionLocation (result e1)) "PP1002" FatalErrorSeverity.

Section Independence.

(** The test on [e1.result] at line 324. *)
Variable mayTerminateAbruptly : Completion -> bool.

(** The outer loop (lines 316-351). *)
Fixpoint checkAll (all fs : list FunId) (conflicts : Conflicts) : M Conflicts :=
  match fs with
  | [] => ret conflicts
  | fun1 :: r =>
      match lookupFunction fun1 with
      | None => throw InvariantViolation
      | Some fv1 =>
          let fun1Name := functionName fv1 in
          let* s := get in
          match nmap_get fun1 (writeEffects s) with
          | None => throw InvariantViolation
          | Some additionalFunctionEffects =>
              let e1 := effects additionalFunctionEffects in
              if mayTerminateAbruptly (result e1) then
                let* _ := handleError (abruptDiagnostic fun1Name e1) in
                throw FatalError
              else
                let* c := checkPairs fun1 fun1Name e1 all conflicts in
                checkAll all r c
          end
      end
  end.

(** Lines 315-355: the verification phase. *)
Definition verifyIndependence : M unit :=
  let* s := get in
  let fs := additionalFunctions s in
  let* conflicts := checkAll fs fs [] in
  match conflicts with
  | [] => ret tt
  | _ :: _ =>
      forEach (map snd conflicts) (fun d => let* _ := handleError d in ret tt) ;;
      throw FatalError
  end.

End Independence.

Definition checkThatFunctionsAreIndependent (fuel : nat) : M unit :=
  captureOptimizedFunctions fuel ;;
  verifyIndependence mayTerminateAbruptlyAsWritten.

End Functions.

Definition append_log (evs : list Event) (s : St) : St :=
  mkSt (optimizedFunctions s) (heap s) (writeEffects s) (optimizedFunctionId s)
       (additionalFunctionStack s) (additionalFunctions s) (errorHandler s)
       (log s ++ evs).

Definition entryOf (c : Value * option ArgModel * FunctionValue) : Value * option ArgModel :=
  fst c.

Definition resolvesTo (P : Program) (c : Value * option ArgModel * FunctionValue) : Prop :=
  _unwrapAbstract (fst (fst c)) = VFun (fid (snd c)) /\
  lookupFunction P (fid (snd c)) = Some (snd c).

Definition ex_f1 : FunctionValue :=
  mkFunctionValue 1 [] [SSet 100 "x"%string 1 (Some 20)] true (Some 10) (Some "f1"%string).
Definition ex_f2_discarded : FunctionValue :=
  mkFunctionValue 2 [] [] false (Some 11) (Some "f2"%string).
Definition ex_program_c9 : Program := mkProgram [ex_f1; ex_f2_discarded] [].
Definition ex_cands_c9 : list (Value * option ArgModel * FunctionValue) :=
  [(VFun 1, None, ex_f1);
   (VAbstract 7 (Some [EFun 2; EUndefined]), Some 3, ex_f2_discarded)].
Definition ex_state_c9 (handler : CompilerDiagnostic -> bool) : St :=
  mkSt (map entryOf ex_cands_c9) [] [] 0 [] [] handler [].

Definition initialState (registered : list (Value * option ArgModel)) : St :=
  mkSt registered [] [] 0 [] [] (fun _ => false) [].

(** [function f1({a}) {}] and [function f2() {}], both registered. *)
Definition ex_f1_destructuring : FunctionValue :=
  mkFunctionValue 1 [PObjectPattern] [] true (Some 10) (Some "f1"%string).
Definition ex_f2_plain : FunctionValue :=
  mkFunctionValue 2 [] [] true (Some 11) (Some "f2"%string).
Definition ex_program_c6 : Program := mkProgram [ex_f1_destructuring; ex_f2_plain] [].

(** [function g(a = 1, {b}) { return o.x; }]. *)
Definition ex_default_then_pattern : FunctionValue :=
  mkFunctionValue 2 [PAssignmentPattern "a"%string; PObjectPattern]
    [SGet 100 "x"%string (Some 31)] true (Some 11) (Some "g"%string).
Definition ex_program_c7 : Program := mkProgram [ex_default_then_pattern] [].

(** [function f() { __optimize(h); }] where [h] is declared in global code. *)
Definition ex_f_optimizes_h : FunctionValue :=
  mkFunctionValue 1 [] [SOptimize (VFun 2) None] true (Some 10) (Some "f"%string).
Definition ex_h_global : FunctionValue :=
  mkFunctionValue 2 [] [] true (Some 11) (Some "h"%string).
Definition ex_program_c8 : Program := mkProgram [ex_f_optimizes_h; ex_h_global] [].

(** [f] registered at top level, and [function g() { __optimize(f); }]. *)
Definition ex_g_optimizes_f : FunctionValue :=
  mkFunctionValue 2 [] [SOptimize (VFun 1) None] true (Some 11) (Some "g"%string).
Definition ex_f_top : FunctionValue :=
  mkFunctionValue 1 [] [] true (Some 10) (Some "f"%string).
Definition ex_program_c4 : Program := mkProgram [ex_f_top; ex_g_optimizes_f] [].

Definition isIdentifierParam (p : Param) : bool :=
  match p with PIdentifier _ => true | _ => false end.

(** The functions [_callOfFunction] accepts. *)
Definition callable (fv : FunctionValue) : bool :=
  negb (Nat.ltb 0 (getLength fv)) || forallb isIdentifierParam (formalParameters fv).

Definition createdBy (f : FunId) (entry : FunId * AdditionalFunctionEffects) : Prop :=
  In f (createdObjects (effects (snd entry))).

Definition ex_afe_f : AdditionalFunctionEffects :=
  mkAdditionalFunctionEffects (mkEffects CNormal [] []) None.

(** [function f() { h = function () {}; __optimize(h); }]: [h] is created
    by [f]. *)
Definition ex_afe_f_creates_h : AdditionalFunctionEffects :=
  mkAdditionalFunctionEffects (mkEffects CNormal [] [2]) None.

(** * Summaries of the verification phase *)

(** The heap on which [checkPair] replays [f]: the global environment, with
    the effects of [f]'s parent applied when it has one. *)
Definition replayBaseline (we : list (FunId * AdditionalFunctionEffects)) (h0 : Heap)
  (f : FunId) : Heap :=
  match nmap_get f we with
  | Some afe =>
      match parentAdditionalFunction afe with
      | Some p =>
          match nmap_get p we with
          | Some pe => applyEffects h0 (effects pe)
          | None => h0
          end
      | None => h0
      end
  | None => h0
  end.

Definition replayAccesses (P : Program) (we : list (FunId * AdditionalFunctionEffects))
  (h0 : Heap) (f : FunId) : list Access :=
  match lookupFunction P f with
  | Some fv => runAccesses (exec (replayBaseline we h0 f) (body fv))
  | None => []
  end.

Definition writtenObjectsOf (e1 : Effects) : list ObjId :=
  map (fun w => fst (fst w)) (modifiedProperties e1).

Definition replayedBy (P : Program) (fname : string) (e1 : Effects) (c : Conflicts)
  (accesses : list Access) : Conflicts :=
  fold_left (reportAccess P fname (writtenObjectsOf e1) (modifiedProperties e1)) accesses c.

(** What the inner loop needs of a candidate: it is a known function that
    [_callOfFunction] accepts, it has a recorded entry, and its parent, if
    any, has one too. *)
Definition wellFormedCandidate (P : Program) (we : list (FunId * AdditionalFunctionEffects))
  (f : FunId) : bool :=
  match lookupFunction P f, nmap_get f we with
  | Some fv, Some afe =>
      callable fv &&
      match parentAdditionalFunction afe with
      | Some p => nmap_has p we
      | None => true
      end
  | _, _ => false
  end.

Definition sameCore (s s' : St) : Prop :=
  heap s' = heap s /\ writeEffects s' = writeEffects s /\
  errorHandler s' = errorHandler s /\ additionalFunctions s' = additionalFunctions s.

Definition replayEvent (we : list (FunId * AdditionalFunctionEffects)) (h0 : Heap)
  (f : FunId) : Event :=
  EvReplay f (replayBaseline we h0 f).

(** The conflicts collected by [checkPairs] for [fun1] over [fs]. *)
Fixpoint pairsResult (P : Program) (we : list (FunId * AdditionalFunctionEffects)) (h0 : Heap)
  (fun1 : FunId) (name : string) (e1 : Effects) (fs : list FunId) (c : Conflicts) : Conflicts :=
  match fs with
  | [] => c
  | f2 :: r =>
      if Nat.eqb fun1 f2 then pairsResult P we h0 fun1 name e1 r c
      else pairsResult P we h0 fun1 name e1 r (replayedBy P name e1 c (replayAccesses P we h0 f2))
  end.

Fixpoint pairsEvents (we : list (FunId * AdditionalFunctionEffects)) (h0 : Heap)
  (fun1 : FunId) (fs : list FunId) : list Event :=
  match fs with
  | [] => []
  | f2 :: r =>
      if Nat.eqb fun1 f2 then pairsEvents we h0 fun1 r
      else replayEvent we h0 f2 :: pairsEvents we h0 fun1 r
  end.

(** The name and effects the outer loop uses for a candidate. *)
Definition candidateInfo (P : Program) (we : list (FunId * AdditionalFunctionEffects))
  (f : FunId) : option (string * Effects) :=
  match lookupFunction P f, nmap_get f we with
  | Some fv, Some afe => Some (functionName fv, effects afe)
  | _, _ => None
  end.

(** The conflicts collected by the outer loop over every ordered pair
    [(fun1, fun2)] of distinct candidates. *)
Fixpoint allResult (P : Program) (we : list (FunId * AdditionalFunctionEffects)) (h0 : Heap)
  (all fs : list FunId) (c : Conflicts) : Conflicts :=
  match fs with
  | [] => c
  | f1 :: r =>
      match candidateInfo P we f1 with
      | Some (n, e1) => allResult P we h0 all r (pairsResult P we h0 f1 n e1 all c)
      | None => c
      end
  end.

Fixpoint allEvents (P : Program) (we : list (FunId * AdditionalFunctionEffects)) (h0 : Heap)
  (all fs : list FunId) : list Event :=
  match fs with
  | [] => []
  | f1 :: r =>
      match candidateInfo P we f1 with
      | Some _ => pairsEvents we h0 f1 all ++ allEvents P we h0 all r
      | None => []
      end
  end.

(** Whether access [a] makes one of the two hooks of
    [reportWriteConflicts] report location [L], for the write set of [e1]. *)
Definition hits (P : Program) (e1 : Effects) (a : Access) (L : Loc) : bool :=
  match a with
  | AEnum ob loc => Nat.eqb loc L && existsb (Nat.eqb ob) (writtenObjectsOf e1)
  | AProp pb (Some loc) =>
      Nat.eqb loc L && negb (refuseSerializationOnPropertyBinding P pb) &&
      existsb (pb_eqb pb) (map fst (modifiedProperties e1))
  | AProp _ None => false
  end.

Definition replayHits (P : Program) (we : list (FunId * AdditionalFunctionEffects)) (h0 : Heap)
  (e1 : Effects) (f2 : FunId) (L : Loc) : bool :=
  existsb (fun a => hits P e1 a L) (replayAccesses P we h0 f2).

(** Every ordered pair [(f1, f2)] of distinct candidates in which the
    replay of [f2] hits the writes of [f1] at [L] has [f1 = A]. *)
Definition onlyWriterAt (P : Program) (we : list (FunId * AdditionalFunctionEffects)) (h0 : Heap)
  (fs : list FunId) (A : FunId) (L : Loc) : bool :=
  forallb (fun f1 =>
    Nat.eqb f1 A ||
    match candidateInfo P we f1 with
    | Some (_, e1) => forallb (fun f2 => Nat.eqb f1 f2 || negb (replayHits P we h0 e1 f2 L)) fs
    | None => true
    end) fs.

(** Whether the replay of another candidate of [fs] hits the writes of
    [f1] at [L]. *)
Definition writerHitAt (P : Program) (we : list (FunId * AdditionalFunctionEffects)) (h0 : Heap)
  (fs : list FunId) (L : Loc) (f1 : FunId) : bool :=
  match candidateInfo P we f1 with
  | Some (_, e1) => existsb (fun f2 => negb (Nat.eqb f1 f2) && replayHits P we h0 e1 f2 L) fs
  | None => false
  end.

(** The first candidate of [outer], in the iteration order, whose writes
    the replay of another candidate of [fs] hits at [L]. *)
Definition firstWriterAt (P : Program) (we : list (FunId * AdditionalFunctionEffects)) (h0 : Heap)
  (fs outer : list FunId) (L : Loc) : option FunId :=
  find (writerHitAt P we h0 fs L) outer.

(** [function f() { throw ...; }], which always ends in a throw. *)
Definition ex_thrower : FunctionValue :=
  mkFunctionValue 1 [] [SThrow 5] true (Some 10) (Some "f"%string).
Definition ex_program_c1 : Program := mkProgram [ex_thrower] [].

(** [function F() { obj.y = 1; H = function () { return obj.y; };
    __optimize(H); }]. *)
Definition ex_F_parent : FunctionValue :=
  mkFunctionValue 1 [] [SSet 100 "y" 1 (Some 22); SCreateFunction 2; SOptimize (VFun 2) None]
    true (Some 10) (Some "F"%string).
Definition ex_H_nested : FunctionValue :=
  mkFunctionValue 2 [] [SGet 100 "y" (Some 40)] true (Some 11) (Some "H"%string).
Definition ex_program_c2 : Program := mkProgram [ex_F_parent; ex_H_nested] [].

(** Two writers of [obj.x] and a reader that reads it twice at location 7. *)
Definition ex_c_writer : FunctionValue :=
  mkFunctionValue 1 [] [SSet 100 "x" 1 (Some 20)] true (Some 10) (Some "C"%string).
Definition ex_a_writer : FunctionValue :=
  mkFunctionValue 2 [] [SSet 100 "x" 2 (Some 21)] true (Some 11) (Some "A"%string).
Definition ex_b_reader : FunctionValue :=
  mkFunctionValue 3 [] [SGet 100 "x" (Some 7); SGet 100 "x" (Some 7)] true (Some 12) (Some "B"%string).
Definition ex_program_c3 : Program := mkProgram [ex_c_writer; ex_a_writer; ex_b_reader] [].

(** One writer and the same reader. *)
Definition ex_b_reader2 : FunctionValue :=
  mkFunctionValue 2 [] [SGet 100 "x" (Some 7); SGet 100 "x" (Some 7)] true (Some 12) (Some "B"%string).
Definition ex_program_c3_single : Program := mkProgram [ex_c_writer; ex_b_reader2] [].

(** The state in which verification starts after the capture of the
    registered functions. *)
Definition capturedState (P : Program) (registered : list (Value * option ArgModel)) : St :=
  snd (captureOptimizedFunctions P 10 (initialState registered)).

Definition ex_state_c2 : St := capturedState ex_program_c2 [(VFun 1, None)].
(** The effects recorded for [F]. *)
Definition ex_effects_F : Effects := mkEffects CNormal [((100, "y"%string), 1)] [2].

Definition ex_state_c3 : St := capturedState ex_program_c3_single [(VFun 1, None); (VFun 2, None)].
Definition ex_afe_c_writer : AdditionalFunctionEffects :=
  mkAdditionalFunctionEffects (mkEffects CNormal [((100, "x"%string), 1)] []) None.

Definition ex_state_c5 : St :=
  capturedState ex_program_c3 [(VFun 1, None); (VFun 2, None); (VFun 3, None)].

(** * The capture phase: what a step keeps *)

(** The ids of the [beginOptimizingFunction] calls among [evs]. *)
Definition beginIds (evs : list Event) : list nat :=
  flat_map (fun ev => match ev with EvBeginOptimizing id _ => [id] | _ => [] end) evs.

(** Every record of [writeEffects] is of a function [_callOfFunction]
    accepts, and its parent, if any, is recorded too. *)
Definition recordsWellFormed (P : Program) (we : list (FunId * AdditionalFunctionEffects)) : Prop :=
  forall f afe, nmap_get f we = Some afe ->
    (exists fv, lookupFunction P f = Some fv /\ callable fv = true) /\
    match parentAdditionalFunction afe with
    | Some p => nmap_has p we = true
    | None => True
    end.

(** How the state may change across a step of the capture phase that
    returns normally. *)
Definition Grow (P : Program) (s s' : St) : Prop :=
  heap s' = heap s /\
  (forall g, nmap_has g (writeEffects s) = true -> nmap_has g (writeEffects s') = true) /\
  (forall g, In g (additionalFunctions s) -> In g (additionalFunctions s')) /\
  (forall g, In g (additionalFunctions s') ->
     In g (additionalFunctions s) \/ nmap_has g (writeEffects s') = true) /\
  (recordsWellFormed P (writeEffects s) -> recordsWellFormed P (writeEffects s')) /\
  (NoDup (additionalFunctions s) -> NoDup (additionalFunctions s')) /\
  optimizedFunctionId s <= optimizedFunctionId s' /\
  (exists evs, log s' = log s ++ evs /\
     beginIds evs = seq (optimizedFunctionId s) (optimizedFunctionId s' - optimizedFunctionId s)).

Definition Preserves (P : Program) {A} (m : M A) : Prop :=
  forall s s' x, m s = (Ok x, s') -> Grow P s s'.

(** As [Preserves], and [f] is recorded afterwards. *)
Definition PreservesR (P : Program) (f : FunId) {A} (m : M A) : Prop :=
  forall s s' x, m s = (Ok x, s') -> Grow P s s' /\ nmap_has f (writeEffects s') = true.

(** A computation that, when it returns normally, leaves
    [additionalFunctionStack] as it found it. *)
Definition KeepsStack {A} (m : M A) : Prop :=
  forall s s' x, m s = (Ok x, s') -> additionalFunctionStack s' = additionalFunctionStack s.

(** [Map.prototype.get] on [Map<Value, _>]. *)
Fixpoint map_get {V} (k : Value) (m : list (Value * V)) : option V :=
  match m with
  | [] => None
  | (k', v) :: r => if value_eqb k k' then Some v else map_get k r
  end.

Definition isReplay (ev : Event) : bool :=
  match ev with EvReplay _ _ => true | _ => false end.

Definition ex_registered_c3 : list (Value * option ArgModel) :=
  [(VFun 1, None); (VFun 2, None); (VFun 3, None)].

(** * React component tree roots (lines 75-135) *)

(** A number in a template literal. *)
Definition string_of_nat (n : nat) : string := NilZero.string_of_uint (Nat.to_uint n).

(** [BabelNodeSourceLocation] with its positions. *)
Record SourceLocation := mkSourceLocation {
  startLine : nat; startColumn : nat; endLine : nat; endColumn : nat
}.

(** [AdditionalFunctionEntry]; [config] is a [ReactComponentTreeConfig]. *)
Record AdditionalFunctionEntry (Config : Type) := mkAdditionalFunctionEntry {
  entryValue : Value;
  entryConfig : option Config;
  entryArgModel : option ArgModel
}.
Arguments mkAdditionalFunctionEntry {Config} _ _ _.
Arguments entryValue {Config} _.
Arguments entryConfig {Config} _.
Arguments entryArgModel {Config} _.

Definition isObjectValue (v : Value) : bool :=
  match v with VFun _ | VObject _ => true | _ => false end.

(** The location text of the PP0033 message (lines 101-104). *)
Definition locationText (l : option SourceLocation) : string :=
  match l with
  | Some loc =>
      string_of_nat (startLine loc) ++ ":" ++ string_of_nat (startColumn loc) ++ " " ++
      string_of_nat (endLine loc) ++ ":" ++ string_of_nat (endLine loc)
  | None => "location unknown"
  end.

Section React.

Variable P : Program.
(** The operations of the realm and of [react/utils.js] these functions
    call: [Get(realm, value, key)], [valueIsKnownReactAbstraction],
    [convertConfigObjectToReactComponentTreeConfig], [realm.currentLocation],
    [value.expressionLocation], the guarded global lookup of line 117, and
    an object's own keys and own data properties. *)
Variable ReactComponentTreeConfig : Type.
Variable Get : Value -> string -> M Value.
Variable valueIsKnownReactAbstraction : Value -> bool.
Variable convertConfigObjectToReactComponentTreeConfig : Value -> M ReactComponentTreeConfig.
Variable currentLocation : St -> option Loc.
Variable sourceLocationOf : Value -> option SourceLocation.
Variable tryQueryGlobal : string -> M Value.
Variable getOwnPropertyKeysArray : Value -> M (list string).
(** [properties.get(key)]: [None] when absent, [Some None] when the
    descriptor has no value. *)
Variable ownPropertyValue : St -> Value -> string -> option (option Value).

Definition isECMAScriptSourceFunctionValue (v : Value) : bool :=
  match v with
  | VFun f => match lookupFunction P f with Some _ => true | None => false end
  | _ => false
  end.

Definition invalidEntryDiagnostic (value : Value) (s : St) : CompilerDiagnostic :=
  mkCompilerDiagnostic
    ("Optimized Function Value " ++ locationText (sourceLocationOf value) ++
     " is an not a function or react element")
    (currentLocation s) "PP0033" FatalErrorSeverity.

Definition _optimizedFunctionEntryOfValue (value0 : Value)
  : M (option (AdditionalFunctionEntry ReactComponentTreeConfig)) :=
  let value := match value0 with VAbstract _ _ => _unwrapAbstract value0 | _ => value0 end in
  invariant (isObjectValue value) ;;
  let* config := Get value "config" in
  let* rootComponent := Get value "rootComponent" in
  let validConfig :=
    isObjectValue config || match config with VUndefined => true | _ => false end in
  let validRootComponent :=
    isECMAScriptSourceFunctionValue rootComponent ||
    (match rootComponent with VAbstract _ _ => true | _ => false end &&
     valueIsKnownReactAbstraction rootComponent) in
  if validConfig && validRootComponent then
    let* c := convertConfigObjectToReactComponentTreeConfig config in
    ret (Some (mkAdditionalFunctionEntry rootComponent (Some c) None))
  else
    let* s := get in
    let* _ := handleError (invalidEntryDiagnostic value s) in
    throw FatalError.

(** The loop of [_generateInitialAdditionalFunctions] (lines 123-132). *)
Fixpoint collectEntries (m : Value) (keys : list string)
  : M (list (AdditionalFunctionEntry ReactComponentTreeConfig)) :=
  match keys with
  | [] => ret []
  | funcId :: r =>
      let* s := get in
      match ownPropertyValue s m funcId with
      | None => collectEntries m r
      | Some None => throw InvariantViolation
      | Some (Some value) =>
          let* entry := _optimizedFunctionEntryOfValue value in
          match entry with
          | Some e => let* rest := collectEntries m r in ret (e :: rest)
          | None => collectEntries m r
          end
      end
  end.

Definition _generateInitialAdditionalFunctions (globalKey : string)
  : M (list (AdditionalFunctionEntry ReactComponentTreeConfig)) :=
  let* globalRecordedAdditionalFunctionsMap := tryQueryGlobal globalKey in
  invariant (isObjectValue globalRecordedAdditionalFunctionsMap) ;;
  let* keys := getOwnPropertyKeysArray globalRecordedAdditionalFunctionsMap in
  collectEntries globalRecordedAdditionalFunctionsMap keys.

End React.

(** A realm for the React examples: [config] is [configValue] and
    [rootComponent] is function 1; the global map has keys [a], [b] and
    [c], with a plain object at [a], nothing at [b] and, at [c], an
    abstract value that is empty or an object. *)
Definition ex_react_get (configValue : Value) : Value -> string -> M Value :=
  fun _ key s => (Ok (if String.eqb key "config" then configValue else VFun 1), s).
Definition ex_react_convert : Value -> M unit := fun _ s => (Ok tt, s).
Definition ex_react_known : Value -> bool := fun _ => false.
Definition ex_react_currentLocation : St -> option Loc := fun _ => Some 42.
Definition ex_react_sourceLocation : Value -> option SourceLocation :=
  fun _ => Some (mkSourceLocation 3 4 5 6).
Definition ex_react_global : string -> M Value := fun _ s => (Ok (VObject 9), s).
Definition ex_react_keys : Value -> M (list string) :=
  fun _ s => (Ok ["a"; "b"; "c"]%string, s).
Definition ex_react_property : St -> Value -> string -> option (option Value) :=
  fun _ _ k => if String.eqb k "a" then Some (Some (VObject 7))
               else if String.eqb k "c" then Some (Some (VAbstract 5 (Some [EEmpty; EOther 8])))
               else None.

(** * Properties *)

Lemma push_log_append_log ev s : push_log ev s = append_log [ev] s.
Proof. reflexivity. Qed.

Lemma append_log_app evs1 evs2 s :
  append_log evs2 (append_log evs1 s) = append_log (evs1 ++ evs2) s.
Proof. unfold append_log; simpl; now rewrite app_assoc. Qed.

Lemma append_log_nil s : append_log [] s = s.
Proof. destruct s; unfold append_log; simpl; now rewrite app_nil_r. Qed.

Lemma lookupFunction_fid P f fv : lookupFunction P f = Some fv -> fid fv = f.
Proof.
  unfold lookupFunction; intro H; apply find_some in H.
  destruct H as [_ H]; now apply Nat.eqb_eq.
Qed.

Lemma unwrap_value v :
  match v with VAbstract _ _ => _unwrapAbstract v | _ => v end = _unwrapAbstract v.
Proof. destruct v; reflexivity. Qed.

(** ** Candidate lists generated from the realm *)

Lemma generate_recovered (P : Program) cands s :
  Forall (resolvesTo P) cands ->
  Forall (fun c => isValid (snd c) = false ->
                   errorHandler s (speculativeDiagnostic (snd c)) = true) cands ->
  generateOptimizedFunctions P (map entryOf cands) s =
  (Ok (map (fun c => (fid (snd c), snd (fst c))) (filter (fun c => isValid (snd c)) cands)),
   append_log (map (fun c => EvHandleError (speculativeDiagnostic (snd c)))
                   (filter (fun c => negb (isValid (snd c))) cands)) s).
Proof.
  revert s; induction cands as [|[[v am] fv] r IH]; intros s Hres Hrec.
  - simpl; now rewrite append_log_nil.
  - inversion Hres as [|? ? [Hu Hl] Hres']; subst.
    inversion Hrec as [|? ? Hc Hrec']; subst; simpl in *.
    rewrite unwrap_value, Hu, Hl.
    destruct (isValid fv) eqn:Hv; simpl.
    + unfold bind at 1; rewrite (IH s Hres' Hrec'); reflexivity.
    + unfold bind, handleError; rewrite (Hc eq_refl).
      rewrite push_log_append_log.
      rewrite (IH (append_log _ s)); simpl.
      * now rewrite append_log_app.
      * exact Hres'.
      * exact Hrec'.
Qed.

Lemma generate_unrecovered (P : Program) cands s :
  Forall (resolvesTo P) cands ->
  Exists (fun c => isValid (snd c) = false /\
                   errorHandler s (speculativeDiagnostic (snd c)) = false) cands ->
  fst (generateOptimizedFunctions P (map entryOf cands) s) = Err FatalError.
Proof.
  revert s; induction cands as [|[[v am] fv] r IH]; intros s Hres Hex.
  - inversion Hex.
  - inversion Hres as [|? ? [Hu Hl] Hres']; subst; simpl in *.
    rewrite unwrap_value, Hu, Hl.
    inversion Hex as [? ? [Hv Hh] | ? ? Hex']; subst; simpl in *.
    + rewrite Hv; unfold bind, handleError; now rewrite Hh.
    + destruct (isValid fv) eqn:Hv; unfold bind.
      * specialize (IH s Hres' Hex').
        destruct (generateOptimizedFunctions P (map entryOf r) s) as [[a|e] s']; simpl in *;
          congruence.
      * unfold handleError; destruct (errorHandler s (speculativeDiagnostic fv)); [|reflexivity].
        apply IH; [exact Hres'|].
        exact Hex'.
Qed.

(** C9: every registered value whose function is no longer valid (its
    [__optimize] call ran in a discarded speculative context) is left out of
    the generated candidates, with one recoverable PP1008 diagnostic; when
    the handler recovers from every such diagnostic the valid candidates are
    returned in order, and as soon as it does not, a FatalError is
    thrown. *)
Theorem generateOptimizedFunctionsFromRealm_excludes_invalid (P : Program)
  (cands : list (Value * option ArgModel * FunctionValue)) (s : St)
  (Hreg : optimizedFunctions s = map entryOf cands)
  (Hres : Forall (resolvesTo P) cands) :
  (Forall (fun c => isValid (snd c) = false ->
                    errorHandler s (speculativeDiagnostic (snd c)) = true) cands ->
   _generateOptimizedFunctionsFromRealm P s =
   (Ok (map (fun c => (fid (snd c), snd (fst c))) (filter (fun c => isValid (snd c)) cands)),
    append_log (map (fun c => EvHandleError (speculativeDiagnostic (snd c)))
                    (filter (fun c => negb (isValid (snd c))) cands)) s))
  /\
  (Exists (fun c => isValid (snd c) = false /\
                    errorHandler s (speculativeDiagnostic (snd c)) = false) cands ->
   fst (_generateOptimizedFunctionsFromRealm P s) = Err FatalError).
Proof.
  unfold _generateOptimizedFunctionsFromRealm, bind, get; rewrite Hreg; split.
  - intro Hrec; now apply generate_recovered.
  - intro Hex; now apply generate_unrecovered.
Qed.

Lemma generateOptimizedFunctionsFromRealm_excludes_invalid_witness :
  (_generateOptimizedFunctionsFromRealm ex_program_c9 (ex_state_c9 (fun _ => true)) =
   (Ok [(1, None)],
    append_log [EvHandleError (speculativeDiagnostic ex_f2_discarded)]
               (ex_state_c9 (fun _ => true))))
  /\ fst (_generateOptimizedFunctionsFromRealm ex_program_c9 (ex_state_c9 (fun _ => false)))
     = Err FatalError.
Proof.
  split.
  - apply (proj1 (generateOptimizedFunctionsFromRealm_excludes_invalid
                    ex_program_c9 ex_cands_c9 (ex_state_c9 (fun _ => true))
                    eq_refl
                    ltac:(repeat constructor))).
    repeat constructor.
  - apply (proj2 (generateOptimizedFunctionsFromRealm_excludes_invalid
                    ex_program_c9 ex_cands_c9 (ex_state_c9 (fun _ => false))
                    eq_refl
                    ltac:(repeat constructor))).
    apply Exists_cons_tl, Exists_cons_hd; split; reflexivity.
Defined.

(** ** Concrete programs *)

(** ** Runs of the concrete programs *)

(** C4 (counterexample): [f] is registered a second time by [g]; the second
    capture of [f] ([EvEvaluatePure 1]) runs before the PP1009 diagnostic is
    raised. *)
Lemma double_optimization_raised_after_second_capture :
  fst (checkThatFunctionsAreIndependent ex_program_c4 5
         (initialState [(VFun 1, None); (VFun 2, None)])) = Err FatalError /\
  log (snd (checkThatFunctionsAreIndependent ex_program_c4 5
              (initialState [(VFun 1, None); (VFun 2, None)]))) =
  [EvBeginOptimizing 0 1; EvEvaluatePure 1; EvEndOptimizing 0;
   EvBeginOptimizing 1 2; EvEvaluatePure 2;
   EvBeginOptimizing 2 1; EvEvaluatePure 1;
   EvHandleError (doubleOptimizationDiagnostic ex_f_top)].
Proof. vm_compute; split; reflexivity. Qed.

(** C6 (counterexample): the capture of [f1] fails (PP1005); the pending
    registration list is left empty instead of being restored. *)
Lemma registration_list_not_restored_on_error :
  optimizedFunctions (initialState [(VFun 1, None); (VFun 2, None)]) <> [] /\
  fst (checkThatFunctionsAreIndependent ex_program_c6 5
         (initialState [(VFun 1, None); (VFun 2, None)])) = Err FatalError /\
  optimizedFunctions (snd (checkThatFunctionsAreIndependent ex_program_c6 5
                             (initialState [(VFun 1, None); (VFun 2, None)]))) = [].
Proof. vm_compute; split; [discriminate | split; reflexivity]. Qed.

(** C7: a destructuring pattern after a defaulted parameter gives the
    function a [length] of 0; the parameter loop is skipped, no PP1005 is
    raised, and the function is captured. *)
Theorem nonsimple_parameters_accepted_when_length_is_zero :
  getLength ex_default_then_pattern = 0 /\
  existsb (fun p => negb (isIdentifierParam p)) (formalParameters ex_default_then_pattern) = true /\
  fst (checkThatFunctionsAreIndependent ex_program_c7 5 (initialState [(VFun 2, None)])) = Ok tt /\
  log (snd (checkThatFunctionsAreIndependent ex_program_c7 5 (initialState [(VFun 2, None)]))) =
  [EvBeginOptimizing 0 2; EvEvaluatePure 2; EvEndOptimizing 0].
Proof. vm_compute; repeat split; reflexivity. Qed.

(** C8 (counterexample): [h] is discovered while [f]'s effects are applied
    (its capture is nested in [f]'s), yet its record has no parent, since
    [f] did not create [h]. *)
Lemma nested_discovery_without_parent :
  fst (checkThatFunctionsAreIndependent ex_program_c8 5 (initialState [(VFun 1, None)]))
    = Ok tt /\
  log (snd (checkThatFunctionsAreIndependent ex_program_c8 5 (initialState [(VFun 1, None)])))
    = [EvBeginOptimizing 0 1; EvEvaluatePure 1;
       EvBeginOptimizing 1 2; EvEvaluatePure 2; EvEndOptimizing 1;
       EvEndOptimizing 0; EvReplay 2 []; EvReplay 1 []] /\
  option_map parentAdditionalFunction
    (nmap_get 2 (writeEffects (snd (checkThatFunctionsAreIndependent ex_program_c8 5
                                     (initialState [(VFun 1, None)])))))
    = Some None.
Proof. vm_compute; repeat split; reflexivity. Qed.

(** ** Scoping of the pending registration list *)

(** C6: [_withEmptyOptimizedFunctionList] runs [func] on a state whose
    pending list is empty; when [func] returns, every entry of the snapshot
    is set into the list as [func] left it (registrations made meanwhile
    stay); when [func] fails, the state is the one [func] failed in:
    nothing is restored. *)
Theorem withEmptyOptimizedFunctionList_scoping (P : Program) (f : FunId)
  (am : option ArgModel) (fv : FunctionValue) (func : FunId -> option ArgModel -> M unit)
  (s : St) (Hf : lookupFunction P f = Some fv) :
  let s1 := push_log (EvBeginOptimizing (optimizedFunctionId s) f)
              (set_optimizedFunctionId (S (optimizedFunctionId s))
                 (set_optimizedFunctions [] s)) in
  optimizedFunctions s1 = [] /\
  match func f am s1 with
  | (Ok _, s2) =>
      _withEmptyOptimizedFunctionList P (f, am) func s =
      (Ok tt, set_optimizedFunctions
                (mergeOptimizedFunctions (optimizedFunctions s) (optimizedFunctions s2))
                (push_log (EvEndOptimizing (optimizedFunctionId s)) s2))
  | (Err e, s2) => _withEmptyOptimizedFunctionList P (f, am) func s = (Err e, s2)
  end.
Proof.
  intro s1; split; [reflexivity|].
  unfold _withEmptyOptimizedFunctionList, bind, get, modify, invariant, emit, ret.
  rewrite Hf; unfold modify; cbv beta iota; fold s1.
  destruct (func f am s1) as [[u|e] s2]; reflexivity.
Qed.

Lemma withEmptyOptimizedFunctionList_scoping_witness :
  lookupFunction ex_program_c4 1 = Some ex_f_top /\
  _withEmptyOptimizedFunctionList ex_program_c4 (1, None)
    (fun _ _ => modify (set_optimizedFunctions [(VFun 2, None)]))
    (initialState [(VFun 1, None)]) =
  (Ok tt, set_optimizedFunctions
            (mergeOptimizedFunctions [(VFun 1, None)] [(VFun 2, None)])
            (push_log (EvEndOptimizing 0)
               (set_optimizedFunctions [(VFun 2, None)]
                  (push_log (EvBeginOptimizing 0 1)
                     (set_optimizedFunctionId 1
                        (set_optimizedFunctions [] (initialState [(VFun 1, None)]))))))).
Proof.
  split; [reflexivity|].
  exact (proj2 (withEmptyOptimizedFunctionList_scoping ex_program_c4 1 None ex_f_top
                  (fun _ _ => modify (set_optimizedFunctions [(VFun 2, None)]))
                  (initialState [(VFun 1, None)]) eq_refl)).
Defined.

(** ** Capture and recording of one optimized function *)

Lemma checkFormalParameters_ok fv ps s :
  forallb isIdentifierParam ps = true -> checkFormalParameters fv ps s = (Ok tt, s).
Proof.
  revert s; induction ps as [|p r IH]; intros s H; [reflexivity|].
  destruct p; simpl in *; try discriminate; auto.
Qed.

Lemma callOfFunction_ok P f am fv s :
  lookupFunction P f = Some fv -> callable fv = true ->
  _callOfFunction P f am s = (Ok fv, s).
Proof.
  intros Hf Hc; unfold _callOfFunction; rewrite Hf.
  unfold callable in Hc.
  destruct (Nat.ltb 0 (getLength fv)) eqn:Hl; simpl in Hc.
  - unfold bind; rewrite checkFormalParameters_ok by exact Hc; reflexivity.
  - reflexivity.
Qed.

Lemma checkFormalParameters_state fv ps s s' :
  checkFormalParameters fv ps s = (Ok tt, s') -> s' = s.
Proof.
  revert s; induction ps as [|p r IH]; intros s H; simpl in H.
  - unfold ret in H; congruence.
  - destruct p; try (unfold bind, handleError, throw in H; congruence).
    exact (IH s H).
Qed.

Lemma callOfFunction_state P f am s fv s' :
  _callOfFunction P f am s = (Ok fv, s') -> s' = s /\ lookupFunction P f = Some fv.
Proof.
  unfold _callOfFunction; destruct (lookupFunction P f) as [fv0|] eqn:Hf;
    [|unfold throw; congruence].
  destruct (Nat.ltb 0 (getLength fv0)).
  - unfold bind; destruct (checkFormalParameters fv0 (formalParameters fv0) s)
      as [[[]|e] s1] eqn:Hc; [|unfold ret; congruence].
    apply checkFormalParameters_state in Hc; unfold ret; intro H; inversion H; subst; auto.
  - unfold bind, ret; intro H; inversion H; subst; auto.
Qed.

Lemma nmap_get_set {V} k (v : V) m : nmap_get k (nmap_set k v m) = Some v.
Proof.
  induction m as [|[k' v'] r IH]; simpl.
  - now rewrite Nat.eqb_refl.
  - destruct (Nat.eqb k k') eqn:E; simpl; rewrite E; auto.
Qed.

Lemma getDeclaringAdditionalFunction_spec we f :
  match getDeclaringAdditionalFunction we f with
  | Some p => exists pre e post, we = pre ++ (p, e) :: post /\
              In f (createdObjects (effects e)) /\ Forall (fun qe => ~ createdBy f qe) pre
  | None => Forall (fun qe => ~ createdBy f qe) we
  end.
Proof.
  induction we as [|[q e] r IH]; simpl; [constructor|].
  destruct (existsb (Nat.eqb f) (createdObjects (effects e))) eqn:E.
  - exists [], e, r; repeat split; auto.
    apply existsb_exists in E; destruct E as [x [Hx Hfx]].
    apply Nat.eqb_eq in Hfx; now subst.
  - assert (Hn : ~ createdBy f (q, e)).
    { unfold createdBy; simpl; intro Hin.
      assert (existsb (Nat.eqb f) (createdObjects (effects e)) = true)
        by (apply existsb_exists; exists f; split; [exact Hin | apply Nat.eqb_refl]).
      congruence. }
    destruct (getDeclaringAdditionalFunction r f) as [p|].
    + destruct IH as [pre [e' [post [Hr [Hin Hpre]]]]].
      exists ((q, e) :: pre), e', post; subst; repeat split; auto.
    + constructor; auto.
Qed.

(** C4: when the function is already in [writeEffects], it is first
    captured (its evaluation, [EvEvaluatePure]), then the PP1009 diagnostic
    is raised; unless the handler recovers, a FatalError follows and the
    table is unchanged; if it recovers, the new record replaces the old
    one. *)
Theorem double_optimization_checked_after_capture (P : Program) (f : FunId)
  (am : option ArgModel) (fv : FunctionValue) (s : St)
  (Hf : lookupFunction P f = Some fv) (Hc : callable fv = true)
  (Hdup : nmap_has f (writeEffects s) = true) :
  let d := doubleOptimizationDiagnostic fv in
  let afe := mkAdditionalFunctionEffects (runEffects (exec (heap s) (body fv)))
               (getDeclaringAdditionalFunction (writeEffects s) f) in
  log (snd (captureAndRecord P f am s)) = log s ++ [EvEvaluatePure f; EvHandleError d] /\
  (errorHandler s d = false ->
     fst (captureAndRecord P f am s) = Err FatalError /\
     writeEffects (snd (captureAndRecord P f am s)) = writeEffects s) /\
  (errorHandler s d = true ->
     fst (captureAndRecord P f am s) = Ok afe /\
     nmap_get f (writeEffects (snd (captureAndRecord P f am s))) = Some afe).
Proof.
  intros d afe.
  pose proof (lookupFunction_fid P f fv Hf) as Hid.
  unfold captureAndRecord, bind, modify.
  rewrite (callOfFunction_ok P f am fv _ Hf Hc).
  unfold evaluatePure, bind, get, emit, modify, ret, handleError, throw; simpl.
  rewrite Hdup, Hid; subst d afe.
  unfold set_optimizedFunctions, push_log, set_additionalFunctionStack, set_writeEffects;
    simpl.
  destruct (errorHandler s (doubleOptimizationDiagnostic fv)) eqn:Hh; simpl;
    repeat split; try discriminate; try (rewrite <- app_assoc; reflexivity);
    auto using nmap_get_set.
Qed.

Lemma double_optimization_checked_after_capture_witness :
  lookupFunction ex_program_c4 1 = Some ex_f_top /\ callable ex_f_top = true /\
  nmap_has 1 (writeEffects (set_writeEffects [(1, ex_afe_f)] (initialState []))) = true /\
  log (snd (captureAndRecord ex_program_c4 1 None
              (set_writeEffects [(1, ex_afe_f)] (initialState [])))) =
  [EvEvaluatePure 1; EvHandleError (doubleOptimizationDiagnostic ex_f_top)].
Proof.
  split; [reflexivity|]; split; [reflexivity|]; split; [reflexivity|].
  exact (proj1 (double_optimization_checked_after_capture ex_program_c4 1 None ex_f_top
                  (set_writeEffects [(1, ex_afe_f)] (initialState []))
                  eq_refl eq_refl eq_refl)).
Defined.

Lemma checkFormalParameters_ok_inv fv ps s s' :
  checkFormalParameters fv ps s = (Ok tt, s') -> forallb isIdentifierParam ps = true.
Proof.
  revert s; induction ps as [|p r IH]; intros s H; [reflexivity|].
  destruct p; simpl in H; try (unfold bind, handleError, throw in H; congruence).
  exact (IH s H).
Qed.

Lemma callOfFunction_success P f am s fv s' :
  _callOfFunction P f am s = (Ok fv, s') -> forall t, _callOfFunction P f am t = (Ok fv, t).
Proof.
  intros H t.
  assert (Hc : callable fv = true).
  { revert H; unfold _callOfFunction; destruct (lookupFunction P f) as [fv0|];
      [|unfold throw; congruence].
    unfold callable; destruct (Nat.ltb 0 (getLength fv0)) eqn:Hl; simpl.
    - unfold bind; destruct (checkFormalParameters fv0 (formalParameters fv0) s)
        as [[[]|e] s1] eqn:Hc; [|unfold ret; congruence].
      apply checkFormalParameters_ok_inv in Hc; unfold ret; intro H; inversion H; subst.
      now rewrite Hc, orb_true_r.
    - unfold bind, ret; intro H; inversion H; subst; now rewrite Hl. }
  apply callOfFunction_state in H; destruct H as [_ Hf].
  now apply callOfFunction_ok.
Qed.

Lemma captureAndRecord_eq P f am s fv :
  (forall t, _callOfFunction P f am t = (Ok fv, t)) ->
  captureAndRecord P f am s =
  let s_b := set_optimizedFunctions
               (fold_left (fun m kv => map_set (fst kv) (snd kv) m)
                          (runRegistered (exec (heap s) (body fv))) (optimizedFunctions s))
               (push_log (EvEvaluatePure (fid fv))
                  (set_additionalFunctionStack (f :: additionalFunctionStack s) s)) in
  let afe := mkAdditionalFunctionEffects (runEffects (exec (heap s) (body fv)))
               (getDeclaringAdditionalFunction (writeEffects s) f) in
  let d := doubleOptimizationDiagnostic fv in
  if nmap_has f (writeEffects s) then
    if errorHandler s d
    then (Ok afe, set_writeEffects (nmap_set f afe (writeEffects s))
                    (push_log (EvHandleError d) s_b))
    else (Err FatalError, push_log (EvHandleError d) s_b)
  else (Ok afe, set_writeEffects (nmap_set f afe (writeEffects s)) s_b).
Proof.
  intro Hcall.
  unfold captureAndRecord, bind, modify; rewrite Hcall.
  unfold evaluatePure, bind, get, emit, modify, ret, handleError, throw.
  unfold set_optimizedFunctions, push_log, set_additionalFunctionStack, set_writeEffects;
    simpl.
  destruct (nmap_has f (writeEffects s)); simpl; [|reflexivity].
  destruct (errorHandler s (doubleOptimizationDiagnostic fv)); reflexivity.
Qed.

Lemma captureAndRecord_call_fails P f am s e s' :
  _callOfFunction P f am (set_additionalFunctionStack (f :: additionalFunctionStack s) s)
    = (Err e, s') ->
  captureAndRecord P f am s = (Err e, s').
Proof.
  intro H; unfold captureAndRecord, bind, modify; rewrite H; reflexivity.
Qed.

(** C8: the record [captureAndRecord] stores for a function names as its
    parent the first function of the table (in insertion order) whose
    created objects include it, and no parent when no function of the table
    created it. *)
Theorem recorded_parent_is_declaring_function (P : Program) (f : FunId)
  (am : option ArgModel) (s : St) (afe : AdditionalFunctionEffects)
  (Hok : fst (captureAndRecord P f am s) = Ok afe) :
  nmap_get f (writeEffects (snd (captureAndRecord P f am s))) = Some afe /\
  match parentAdditionalFunction afe with
  | Some p => exists pre e post, writeEffects s = pre ++ (p, e) :: post /\
              In f (createdObjects (effects e)) /\ Forall (fun qe => ~ createdBy f qe) pre
  | None => Forall (fun qe => ~ createdBy f qe) (writeEffects s)
  end.
Proof.
  pose proof (getDeclaringAdditionalFunction_spec (writeEffects s) f) as Hspec.
  destruct (_callOfFunction P f am
              (set_additionalFunctionStack (f :: additionalFunctionStack s) s))
    as [[fv|e] s'] eqn:Hcall.
  - pose proof (callOfFunction_success _ _ _ _ _ _ Hcall) as Hall.
    rewrite (captureAndRecord_eq P f am s fv Hall) in *; cbv zeta in *.
    destruct (nmap_has f (writeEffects s));
      [destruct (errorHandler s (doubleOptimizationDiagnostic fv))|];
      simpl in Hok |- *; inversion Hok; subst afe; simpl;
      split; auto using nmap_get_set.
  - rewrite (captureAndRecord_call_fails P f am s e s' Hcall) in Hok; discriminate.
Qed.

Lemma recorded_parent_is_declaring_function_witness :
  fst (captureAndRecord ex_program_c8 2 None
         (set_writeEffects [(1, ex_afe_f_creates_h)] (initialState [])))
    = Ok (mkAdditionalFunctionEffects (mkEffects CNormal [] []) (Some 1)) /\
  nmap_get 2 (writeEffects (snd (captureAndRecord ex_program_c8 2 None
         (set_writeEffects [(1, ex_afe_f_creates_h)] (initialState [])))))
    = Some (mkAdditionalFunctionEffects (mkEffects CNormal [] []) (Some 1)).
Proof.
  split; [reflexivity|].
  exact (proj1 (recorded_parent_is_declaring_function ex_program_c8 2 None
                  (set_writeEffects [(1, ex_afe_f_creates_h)] (initialState []))
                  (mkAdditionalFunctionEffects (mkEffects CNormal [] []) (Some 1))
                  eq_refl)).
Defined.

Lemma sameCore_refl s : sameCore s s.
Proof. repeat split. Qed.

Lemma sameCore_trans s1 s2 s3 : sameCore s1 s2 -> sameCore s2 s3 -> sameCore s1 s3.
Proof. unfold sameCore; intuition congruence. Qed.

Lemma checkPair_ok P name e1 f2 c s :
  wellFormedCandidate P (writeEffects s) f2 = true ->
  exists s', checkPair P name e1 f2 c s =
    (Ok (replayedBy P name e1 c (replayAccesses P (writeEffects s) (heap s) f2)), s') /\
    sameCore s s' /\ log s' = log s ++ [replayEvent (writeEffects s) (heap s) f2].
Proof.
  unfold wellFormedCandidate; intros Hw.
  destruct (lookupFunction P f2) as [fv|] eqn:Hf; [|discriminate].
  destruct (nmap_get f2 (writeEffects s)) as [afe|] eqn:Hg; [|discriminate].
  apply andb_true_iff in Hw as [Hc Hp].
  pose proof (lookupFunction_fid P f2 fv Hf) as Hid.
  unfold checkPair, replayEvent, replayAccesses, replayBaseline.
  unfold bind at 1, get at 1; rewrite Hg, Hf.
  destruct (parentAdditionalFunction afe) as [p|].
  - unfold nmap_has in Hp.
    destruct (nmap_get p (writeEffects s)) as [pe|] eqn:Hpe; [|discriminate].
    unfold withEffectsAppliedInGlobalEnv, bind.
    rewrite (callOfFunction_ok P f2 None fv _ Hf Hc).
    unfold reportWriteConflicts, bind, get, emit, modify, ret.
    eexists; split; [reflexivity|].
    rewrite Hid; unfold sameCore; simpl; repeat split; reflexivity.
  - unfold bind; rewrite (callOfFunction_ok P f2 None fv _ Hf Hc).
    unfold reportWriteConflicts, bind, get, emit, modify, ret.
    eexists; split; [reflexivity|].
    rewrite Hid; unfold sameCore; simpl; repeat split; reflexivity.
Qed.

Lemma checkPairs_ok P fun1 name e1 fs c s :
  forallb (wellFormedCandidate P (writeEffects s)) fs = true ->
  exists s', checkPairs P fun1 name e1 fs c s =
    (Ok (pairsResult P (writeEffects s) (heap s) fun1 name e1 fs c), s') /\
    sameCore s s' /\ log s' = log s ++ pairsEvents (writeEffects s) (heap s) fun1 fs.
Proof.
  revert c s; induction fs as [|f2 r IH]; intros c s Hwf; simpl in *.
  - exists s; split; [reflexivity|]; split; [apply sameCore_refl|now rewrite app_nil_r].
  - apply andb_true_iff in Hwf as [Hw Hr].
    destruct (Nat.eqb fun1 f2).
    + now apply IH.
    + destruct (checkPair_ok P name e1 f2 c s Hw) as [s1 [E1 [C1 L1]]].
      pose proof C1 as [Hh [Hwe _]].
      rewrite <- Hwe in Hr.
      destruct (IH (replayedBy P name e1 c (replayAccesses P (writeEffects s) (heap s) f2)) s1 Hr)
        as [s2 [E2 [C2 L2]]].
      unfold bind; rewrite E1, E2, Hwe, Hh.
      exists s2; split; [reflexivity|]; split; [eapply sameCore_trans; eauto|].
      rewrite L2, L1, Hwe, Hh, <- app_assoc; reflexivity.
Qed.

Lemma checkAll_ok P t all fs c s :
  forallb (wellFormedCandidate P (writeEffects s)) all = true ->
  forallb (wellFormedCandidate P (writeEffects s)) fs = true ->
  (forall f afe, In f fs -> nmap_get f (writeEffects s) = Some afe ->
     t (result (effects afe)) = false) ->
  exists s', checkAll P t all fs c s =
    (Ok (allResult P (writeEffects s) (heap s) all fs c), s') /\
    sameCore s s' /\ log s' = log s ++ allEvents P (writeEffects s) (heap s) all fs.
Proof.
  intros Hall; revert c s Hall; induction fs as [|f1 r IH]; intros c s Hall Hwf Ht; simpl in *.
  - exists s; split; [reflexivity|]; split; [apply sameCore_refl|now rewrite app_nil_r].
  - apply andb_true_iff in Hwf as [Hw Hr].
    unfold wellFormedCandidate in Hw.
    unfold candidateInfo.
    destruct (lookupFunction P f1) as [fv|] eqn:Hf; [|discriminate].
    destruct (nmap_get f1 (writeEffects s)) as [afe|] eqn:Hg; [|discriminate].
    unfold bind at 1, get at 1; rewrite Hg.
    rewrite (Ht f1 afe (or_introl eq_refl) Hg).
    destruct (checkPairs_ok P f1 (functionName fv) (effects afe) all c s Hall)
      as [s1 [E1 [C1 L1]]].
    pose proof C1 as [Hh [Hwe _]].
    rewrite <- Hwe in Hall, Hr.
    assert (Ht1 : forall f afe, In f r -> nmap_get f (writeEffects s1) = Some afe ->
              t (result (effects afe)) = false)
      by (intros f a Hin; rewrite Hwe; apply Ht; now right).
    destruct (IH (pairsResult P (writeEffects s) (heap s) f1 (functionName fv) (effects afe) all c)
                 s1 Hall Hr Ht1) as [s2 [E2 [C2 L2]]].
    unfold bind; rewrite E1, E2, Hwe, Hh.
    exists s2; split; [reflexivity|]; split; [eapply sameCore_trans; eauto|].
    rewrite L2, L1, Hwe, Hh, <- app_assoc; reflexivity.
Qed.

Lemma forEach_handleError ds s :
  forEach ds (fun d => let* _ := handleError d in ret tt) s =
  (Ok tt, append_log (map EvHandleError ds) s).
Proof.
  revert s; induction ds as [|d r IH]; intros s; simpl.
  - now rewrite append_log_nil.
  - unfold bind at 1, bind at 1, handleError, ret; simpl.
    rewrite IH, push_log_append_log, append_log_app; reflexivity.
Qed.

Lemma verifyIndependence_summary P t s :
  forallb (wellFormedCandidate P (writeEffects s)) (additionalFunctions s) = true ->
  (forall f afe, In f (additionalFunctions s) -> nmap_get f (writeEffects s) = Some afe ->
     t (result (effects afe)) = false) ->
  let fs := additionalFunctions s in
  let c := allResult P (writeEffects s) (heap s) fs fs [] in
  exists s', verifyIndependence P t s =
    (match c with [] => Ok tt | _ :: _ => Err FatalError end, s') /\
    sameCore s s' /\
    log s' = log s ++ allEvents P (writeEffects s) (heap s) fs fs ++
             map (fun kv => EvHandleError (snd kv)) c.
Proof.
  intros Hw Ht fs c; subst fs c.
  destruct (checkAll_ok P t _ _ [] s Hw Hw Ht) as [s1 [E [C L]]].
  unfold verifyIndependence, bind at 1, get at 1.
  unfold bind at 1; rewrite E.
  destruct (allResult _ _ _ _ _ []) as [|kv r] eqn:Ec.
  - exists s1; split; [reflexivity|]; split; [exact C|]. now rewrite L, app_nil_r.
  - unfold bind; rewrite forEach_handleError.
    eexists; split; [reflexivity|].
    destruct C as [H1 [H2 [H3 H4]]].
    split; [unfold sameCore, append_log; simpl; auto|].
    unfold append_log; simpl. rewrite L, map_map, <- app_assoc; reflexivity.
Qed.

Lemma mayTerminateAbruptlyAsWritten_false c : mayTerminateAbruptlyAsWritten c = false.
Proof. destruct c; reflexivity. Qed.

(** *** The conflicts map *)

Lemma nmap_get_none_notin {V} k (m : list (nat * V)) :
  nmap_get k m = None -> ~ In k (map fst m).
Proof.
  induction m as [|[k' v'] r IH]; simpl; [auto|].
  destruct (Nat.eqb k k') eqn:E; [discriminate|].
  apply Nat.eqb_neq in E; intros H [->|Hin]; [now apply E|]. now apply IH.
Qed.

Lemma nmap_set_absent {V} k (v : V) m :
  nmap_get k m = None -> nmap_set k v m = m ++ [(k, v)].
Proof.
  induction m as [|[k' v'] r IH]; simpl; [reflexivity|].
  destruct (Nat.eqb k k'); [discriminate|]. intros H; now rewrite IH.
Qed.

Lemma nmap_get_app_some {V} k (v : V) m m' :
  nmap_get k m = Some v -> nmap_get k (m ++ m') = Some v.
Proof.
  induction m as [|[k' v'] r IH]; simpl; [discriminate|].
  destruct (Nat.eqb k k'); auto.
Qed.

Lemma nmap_get_In {V} k (v : V) m : nmap_get k m = Some v -> In (k, v) m.
Proof.
  induction m as [|[k' v'] r IH]; simpl; [discriminate|].
  destruct (Nat.eqb k k') eqn:E; [|auto].
  apply Nat.eqb_eq in E; intros H; inversion H; subst; now left.
Qed.

Lemma NoDup_snoc {A} (l : list A) x : NoDup l -> ~ In x l -> NoDup (l ++ [x]).
Proof.
  induction l as [|y r IH]; intros Hl Hx; simpl; [constructor; auto; constructor|].
  inversion Hl; subst; constructor.
  - intros H; apply in_app_or in H as [H|[H|[]]]; [contradiction|].
    subst; apply Hx; now left.
  - apply IH; auto. intros H; apply Hx; now right.
Qed.

(** Each reported access either leaves the conflicts alone or adds one
    entry, at a location not yet present and hit by the access. *)
Lemma reportAccess_cases P name e1 c a :
  reportAccess P name (writtenObjectsOf e1) (modifiedProperties e1) c a = c \/
  exists L, hits P e1 a L = true /\ nmap_get L c = None /\
    reportAccess P name (writtenObjectsOf e1) (modifiedProperties e1) c a =
    c ++ [(L, conflictDiagnostic name L)].
Proof.
  destruct a as [pb [loc|]|ob loc]; simpl.
  - destruct (refuseSerializationOnPropertyBinding P pb) eqn:Er; [now left|].
    destruct (existsb (pb_eqb pb) _) eqn:Ew; [|now left].
    unfold nmap_has; destruct (nmap_get loc c) eqn:Eg; [now left|].
    right; exists loc; rewrite Nat.eqb_refl; simpl.
    repeat split; auto. now apply nmap_set_absent.
  - destruct (refuseSerializationOnPropertyBinding P pb); now left.
  - destruct (existsb (Nat.eqb ob) (writtenObjectsOf e1)) eqn:Ew; [|now left].
    unfold nmap_has; destruct (nmap_get loc c) eqn:Eg; [now left|].
    right; exists loc; rewrite Nat.eqb_refl; simpl.
    repeat split; auto. now apply nmap_set_absent.
Qed.

Lemma reportAccess_hit P name e1 c a L :
  hits P e1 a L = true ->
  nmap_has L (reportAccess P name (writtenObjectsOf e1) (modifiedProperties e1) c a) = true.
Proof.
  destruct a as [pb [loc|]|ob loc]; simpl; [| discriminate |].
  - intros H; apply andb_true_iff in H as [H Hw]; apply andb_true_iff in H as [Hl Hr].
    apply Nat.eqb_eq in Hl; subst loc; apply negb_true_iff in Hr; rewrite Hr, Hw; simpl.
    destruct (nmap_has L c) eqn:Eh; simpl; [exact Eh|].
    unfold nmap_has; now rewrite nmap_get_set.
  - intros H; apply andb_true_iff in H as [Hl Hw].
    apply Nat.eqb_eq in Hl; subst loc; rewrite Hw; simpl.
    destruct (nmap_has L c) eqn:Eh; simpl; [exact Eh|].
    unfold nmap_has; now rewrite nmap_get_set.
Qed.

Lemma reportAccess_keep P name e1 c a k v :
  nmap_get k c = Some v ->
  nmap_get k (reportAccess P name (writtenObjectsOf e1) (modifiedProperties e1) c a) = Some v.
Proof.
  intros H; destruct (reportAccess_cases P name e1 c a) as [->|[L [_ [_ ->]]]]; auto.
  now apply nmap_get_app_some.
Qed.

Lemma reportAccess_nodup P name e1 c a :
  NoDup (map fst c) ->
  NoDup (map fst (reportAccess P name (writtenObjectsOf e1) (modifiedProperties e1) c a)).
Proof.
  intros H; destruct (reportAccess_cases P name e1 c a) as [->|[L [_ [Hn ->]]]]; auto.
  rewrite map_app; simpl. apply NoDup_snoc; auto. now apply nmap_get_none_notin.
Qed.

Lemma reportAccess_new P name e1 c a k v :
  In (k, v) (reportAccess P name (writtenObjectsOf e1) (modifiedProperties e1) c a) ->
  In (k, v) c \/ (v = conflictDiagnostic name k /\ hits P e1 a k = true).
Proof.
  destruct (reportAccess_cases P name e1 c a) as [->|[L [Hh [_ ->]]]]; auto.
  intros H; apply in_app_or in H as [H|[H|[]]]; auto.
  inversion H; subst; auto.
Qed.

Lemma nmap_has_get {V} k (m : list (nat * V)) :
  nmap_has k m = true <-> exists v, nmap_get k m = Some v.
Proof.
  unfold nmap_has; destruct (nmap_get k m); split; intros H; eauto; try discriminate.
  destruct H; discriminate.
Qed.

Lemma replayedBy_has P name e1 c acc L :
  nmap_has L c = true \/ existsb (fun a => hits P e1 a L) acc = true ->
  nmap_has L (replayedBy P name e1 c acc) = true.
Proof.
  unfold replayedBy; revert c; induction acc as [|a r IH]; intros c H; simpl in *.
  - destruct H; [exact H|discriminate].
  - apply IH. destruct H as [H|H].
    + left; apply nmap_has_get in H as [v Hv]; apply nmap_has_get; exists v.
      now apply reportAccess_keep.
    + apply orb_true_iff in H as [H|H]; [left; now apply reportAccess_hit|now right].
Qed.

Lemma replayedBy_nodup P name e1 c acc :
  NoDup (map fst c) -> NoDup (map fst (replayedBy P name e1 c acc)).
Proof.
  unfold replayedBy; revert c; induction acc as [|a r IH]; intros c H; simpl; auto.
  apply IH; now apply reportAccess_nodup.
Qed.

Lemma replayedBy_new P name e1 c acc k v :
  In (k, v) (replayedBy P name e1 c acc) ->
  In (k, v) c \/ (v = conflictDiagnostic name k /\ existsb (fun a => hits P e1 a k) acc = true).
Proof.
  unfold replayedBy; revert c; induction acc as [|a r IH]; intros c H; simpl in *; auto.
  destruct (IH _ H) as [H1|[Hv Hr]].
  - destruct (reportAccess_new P name e1 c a k v H1) as [H2|[Hv Hh]]; auto.
    right; split; auto; now rewrite Hh.
  - right; split; auto; now rewrite Hr, orb_true_r.
Qed.

Lemma pairsResult_has P we h0 fun1 name e1 fs c L :
  nmap_has L c = true \/
  (exists f2, In f2 fs /\ fun1 <> f2 /\ replayHits P we h0 e1 f2 L = true) ->
  nmap_has L (pairsResult P we h0 fun1 name e1 fs c) = true.
Proof.
  revert c; induction fs as [|f2 r IH]; intros c H; simpl.
  - destruct H as [H|[f2 [[] _]]]; exact H.
  - destruct (Nat.eqb fun1 f2) eqn:E.
    + apply IH. destruct H as [H|[f [[->|Hin] [Hne Hh]]]]; auto.
      * apply Nat.eqb_eq in E; contradiction.
      * right; eauto.
    + apply IH. destruct H as [H|[f [[->|Hin] [Hne Hh]]]].
      * left; apply replayedBy_has; now left.
      * left; apply replayedBy_has; now right.
      * right; eauto.
Qed.

Lemma pairsResult_nodup P we h0 fun1 name e1 fs c :
  NoDup (map fst c) -> NoDup (map fst (pairsResult P we h0 fun1 name e1 fs c)).
Proof.
  revert c; induction fs as [|f2 r IH]; intros c H; simpl; auto.
  destruct (Nat.eqb fun1 f2); apply IH; auto. now apply replayedBy_nodup.
Qed.

Lemma pairsResult_new P we h0 fun1 name e1 fs c k v :
  In (k, v) (pairsResult P we h0 fun1 name e1 fs c) ->
  In (k, v) c \/
  (exists f2, In f2 fs /\ fun1 <> f2 /\ replayHits P we h0 e1 f2 k = true /\
              v = conflictDiagnostic name k).
Proof.
  revert c; induction fs as [|f2 r IH]; intros c H; simpl in *; auto.
  destruct (Nat.eqb fun1 f2) eqn:E.
  - destruct (IH _ H) as [H1|[f [Hin Hf]]]; auto. right; exists f; auto.
  - destruct (IH _ H) as [H1|[f [Hin Hf]]]; [|right; exists f; auto].
    destruct (replayedBy_new _ _ _ _ _ _ _ H1) as [H2|[Hv Hh]]; auto.
    right; exists f2; repeat split; auto. now apply Nat.eqb_neq.
Qed.

Lemma allResult_mono P we h0 all fs c L :
  Forall (fun f => candidateInfo P we f <> None) fs ->
  nmap_has L c = true -> nmap_has L (allResult P we h0 all fs c) = true.
Proof.
  revert c; induction fs as [|f r IH]; intros c Hfs Hc; simpl; auto.
  inversion Hfs; subst.
  destruct (candidateInfo P we f) as [[n e]|]; [|exact Hc].
  apply IH; auto. apply pairsResult_has; now left.
Qed.

Lemma allResult_has P we h0 all fs c L f1 n e1 f2 :
  Forall (fun f => candidateInfo P we f <> None) fs ->
  In f1 fs -> candidateInfo P we f1 = Some (n, e1) -> In f2 all -> f1 <> f2 ->
  replayHits P we h0 e1 f2 L = true ->
  nmap_has L (allResult P we h0 all fs c) = true.
Proof.
  intros Hfs Hin Hi Hin2 Hne Hh; revert c.
  induction fs as [|f r IH]; intros c; [destruct Hin|]; simpl.
  inversion Hfs; subst.
  destruct Hin as [->|Hin].
  - rewrite Hi. apply allResult_mono; auto.
    apply pairsResult_has; right; eauto.
  - destruct (candidateInfo P we f) as [[n' e']|]; [|contradiction].
    now apply IH.
Qed.

Lemma allResult_nodup P we h0 all fs c :
  NoDup (map fst c) -> NoDup (map fst (allResult P we h0 all fs c)).
Proof.
  revert c; induction fs as [|f r IH]; intros c H; simpl; auto.
  destruct (candidateInfo P we f) as [[n e]|]; auto.
  apply IH; now apply pairsResult_nodup.
Qed.

Lemma allResult_new P we h0 all fs c k v :
  In (k, v) (allResult P we h0 all fs c) ->
  In (k, v) c \/
  (exists f1 n e1 f2, In f1 fs /\ candidateInfo P we f1 = Some (n, e1) /\ In f2 all /\
     f1 <> f2 /\ replayHits P we h0 e1 f2 k = true /\ v = conflictDiagnostic n k).
Proof.
  revert c; induction fs as [|f r IH]; intros c H; simpl in *; auto.
  destruct (candidateInfo P we f) as [[n e]|] eqn:Ef; auto.
  destruct (IH _ H) as [H1|[f1 [n1 [e1' [f2 [Hin Hrest]]]]]].
  - destruct (pairsResult_new _ _ _ _ _ _ _ _ _ _ H1) as [H2|[f2 [Hin2 [Hne [Hh Hv]]]]]; auto.
    right; exists f, n, e, f2; repeat split; auto.
  - right; exists f1, n1, e1', f2; auto.
Qed.

Lemma wellFormed_candidateInfo P we fs :
  forallb (wellFormedCandidate P we) fs = true ->
  Forall (fun f => candidateInfo P we f <> None) fs.
Proof.
  intros H; apply Forall_forall; intros f Hin.
  rewrite forallb_forall in H; specialize (H f Hin).
  unfold wellFormedCandidate, candidateInfo in *.
  destruct (lookupFunction P f), (nmap_get f we); congruence.
Qed.

Lemma nmap_get_set_other {V} k g (v : V) m :
  g <> k -> nmap_get g (nmap_set k v m) = nmap_get g m.
Proof.
  intros Hne; induction m as [|[k' v'] r IH]; simpl.
  - apply Nat.eqb_neq in Hne; now rewrite Hne.
  - destruct (Nat.eqb k k') eqn:E; simpl.
    + apply Nat.eqb_eq in E; subst k'. apply Nat.eqb_neq in Hne; now rewrite Hne.
    + destruct (Nat.eqb g k'); auto.
Qed.

Lemma reportAccess_get P name e1 c a L :
  nmap_get L (reportAccess P name (writtenObjectsOf e1) (modifiedProperties e1) c a) =
  match nmap_get L c with
  | Some d => Some d
  | None => if hits P e1 a L then Some (conflictDiagnostic name L) else None
  end.
Proof.
  assert (Same : forall (b : bool), (if b then nmap_get L c else nmap_get L c) =
           match nmap_get L c with Some d => Some d | None => None end)
    by (intros []; destruct (nmap_get L c); reflexivity).
  destruct a as [pb [loc|]|ob loc]; simpl.
  - destruct (refuseSerializationOnPropertyBinding P pb); simpl.
    + rewrite andb_false_r; destruct (nmap_get L c); reflexivity.
    + rewrite andb_true_r.
      destruct (existsb (pb_eqb pb) _) eqn:Ew; simpl; [|rewrite andb_false_r; destruct (nmap_get L c); reflexivity].
      rewrite andb_true_r.
      destruct (Nat.eq_dec loc L) as [->|Hne].
      * rewrite Nat.eqb_refl; unfold nmap_has.
        destruct (nmap_get L c) eqn:Eg; simpl; [now rewrite Eg|now rewrite nmap_get_set].
      * apply Nat.eqb_neq in Hne; rewrite Hne.
        destruct (negb (nmap_has loc c)); [|destruct (nmap_get L c); reflexivity].
        rewrite nmap_get_set_other by (apply Nat.eqb_neq; now rewrite Nat.eqb_sym).
        destruct (nmap_get L c); reflexivity.
  - destruct (refuseSerializationOnPropertyBinding P pb); destruct (nmap_get L c); reflexivity.
  - destruct (existsb (Nat.eqb ob) (writtenObjectsOf e1)) eqn:Ew; simpl;
      [|rewrite andb_false_r; destruct (nmap_get L c); reflexivity].
    rewrite andb_true_r.
    destruct (Nat.eq_dec loc L) as [->|Hne].
    + rewrite Nat.eqb_refl; unfold nmap_has.
      destruct (nmap_get L c) eqn:Eg; simpl; [now rewrite Eg|now rewrite nmap_get_set].
    + apply Nat.eqb_neq in Hne; rewrite Hne.
      destruct (negb (nmap_has loc c)); [|destruct (nmap_get L c); reflexivity].
      rewrite nmap_get_set_other by (apply Nat.eqb_neq; now rewrite Nat.eqb_sym).
      destruct (nmap_get L c); reflexivity.
Qed.

Lemma replayedBy_get P name e1 c acc L :
  nmap_get L (replayedBy P name e1 c acc) =
  match nmap_get L c with
  | Some d => Some d
  | None => if existsb (fun a => hits P e1 a L) acc then Some (conflictDiagnostic name L) else None
  end.
Proof.
  unfold replayedBy; revert c; induction acc as [|a r IH]; intros c; simpl.
  - destruct (nmap_get L c); reflexivity.
  - rewrite IH, reportAccess_get.
    destruct (nmap_get L c); [reflexivity|].
    destruct (hits P e1 a L); reflexivity.
Qed.

Lemma pairsResult_get P we h0 fun1 name e1 fs c L :
  nmap_get L (pairsResult P we h0 fun1 name e1 fs c) =
  match nmap_get L c with
  | Some d => Some d
  | None => if existsb (fun f2 => negb (Nat.eqb fun1 f2) && replayHits P we h0 e1 f2 L) fs
            then Some (conflictDiagnostic name L) else None
  end.
Proof.
  revert c; induction fs as [|f2 r IH]; intros c; simpl.
  - destruct (nmap_get L c); reflexivity.
  - destruct (Nat.eqb fun1 f2); simpl; rewrite IH; [reflexivity|].
    rewrite replayedBy_get; unfold replayHits.
    destruct (nmap_get L c); [reflexivity|].
    destruct (existsb _ (replayAccesses P we h0 f2)); reflexivity.
Qed.

Lemma allResult_get P we h0 all fs c L :
  Forall (fun f => candidateInfo P we f <> None) fs ->
  nmap_get L (allResult P we h0 all fs c) =
  match nmap_get L c with
  | Some d => Some d
  | None =>
      match firstWriterAt P we h0 all fs L with
      | Some f1 => option_map (fun ne => conflictDiagnostic (fst ne) L) (candidateInfo P we f1)
      | None => None
      end
  end.
Proof.
  unfold firstWriterAt; revert c; induction fs as [|f1 r IH]; intros c Hinfo; simpl.
  - destruct (nmap_get L c); reflexivity.
  - inversion Hinfo as [|? ? Hf Hr]; subst.
    destruct (candidateInfo P we f1) as [[n e1]|] eqn:Ei; [|congruence].
    rewrite IH by exact Hr; rewrite pairsResult_get.
    unfold writerHitAt at 2; rewrite Ei.
    destruct (nmap_get L c); [reflexivity|].
    destruct (existsb (fun f2 => negb (Nat.eqb f1 f2) && replayHits P we h0 e1 f2 L) all);
      simpl; [rewrite Ei|]; reflexivity.
Qed.

(** ** C1: abruptly terminating candidates *)

(** Claim C1. The test of line 324 is
    [e1.result instanceof Completion && !e1.result instanceof
    PossiblyNormalCompletion]; since [!] binds tighter than [instanceof],
    its second operand is a boolean tested against a class and is always
    false. A candidate [f] whose body always throws is therefore not
    rejected: the whole check succeeds with no PP1002 diagnostic. With the
    test read as intended, the same run stops with PP1002. *)
Lemma abrupt_candidate_not_rejected :
  (let r := checkThatFunctionsAreIndependent ex_program_c1 10 (initialState [(VFun 1, None)]) in
   (fst r, log (snd r))) =
  (Ok tt, [EvBeginOptimizing 0 1; EvEvaluatePure 1; EvEndOptimizing 0]) /\
  (let r := (captureOptimizedFunctions ex_program_c1 10 ;;
             verifyIndependence ex_program_c1 mayTerminateAbruptlyIntended)
              (initialState [(VFun 1, None)]) in
   (fst r, log (snd r))) =
  (Err FatalError,
   [EvBeginOptimizing 0 1; EvEvaluatePure 1; EvEndOptimizing 0;
    EvHandleError (abruptDiagnostic "f" (mkEffects (CThrow 5) [] []))]).
Proof. split; vm_compute; reflexivity. Qed.

(** ** C2: replay baselines *)

(** Claim C2 (amended). [checkPair] replays candidate [f2] once: on the
    global heap with the effects of [f2]'s parent applied when [f2] has a
    parent, on the untouched global heap otherwise ([replayBaseline]); the
    heap is restored afterwards. At a location with no conflict yet, an
    access (read or write) of the replay that hits the write set of [e1] is
    reported as a conflict naming [e1]'s function, whatever the baseline:
    the test is membership of the accessed binding in [e1]'s write set, so
    a parent's writes accessed by its nested candidate are reported against
    the parent; nothing else is added. *)
Theorem replay_baseline_and_parent_writes (P : Program) (name : string) (e1 : Effects)
  (f2 : FunId) (c : Conflicts) (s : St)
  (Hwf : wellFormedCandidate P (writeEffects s) f2 = true) :
  exists s', checkPair P name e1 f2 c s =
    (Ok (replayedBy P name e1 c (replayAccesses P (writeEffects s) (heap s) f2)), s') /\
    heap s' = heap s /\
    log s' = log s ++ [EvReplay f2 (replayBaseline (writeEffects s) (heap s) f2)] /\
    (forall L, nmap_get L (replayedBy P name e1 c (replayAccesses P (writeEffects s) (heap s) f2)) =
       match nmap_get L c with
       | Some d => Some d
       | None => if replayHits P (writeEffects s) (heap s) e1 f2 L
                 then Some (conflictDiagnostic name L) else None
       end).
Proof.
  destruct (checkPair_ok P name e1 f2 c s Hwf) as [s' [E [C L]]].
  exists s'; split; [exact E|]; split; [apply C|]; split; [exact L|].
  intros L0; rewrite replayedBy_get; reflexivity.
Qed.

Lemma replay_baseline_and_parent_writes_witness :
  wellFormedCandidate ex_program_c2 (writeEffects ex_state_c2) 2 = true /\
  exists s', checkPair ex_program_c2 "F" ex_effects_F 2 [] ex_state_c2 =
    (Ok (replayedBy ex_program_c2 "F" ex_effects_F []
           (replayAccesses ex_program_c2 (writeEffects ex_state_c2) (heap ex_state_c2) 2)), s') /\
    heap s' = heap ex_state_c2 /\
    log s' = log ex_state_c2 ++
             [EvReplay 2 (replayBaseline (writeEffects ex_state_c2) (heap ex_state_c2) 2)] /\
    (forall L, nmap_get L (replayedBy ex_program_c2 "F" ex_effects_F []
         (replayAccesses ex_program_c2 (writeEffects ex_state_c2) (heap ex_state_c2) 2)) =
       match nmap_get L [] with
       | Some d => Some d
       | None => if replayHits ex_program_c2 (writeEffects ex_state_c2) (heap ex_state_c2)
                      ex_effects_F 2 L
                 then Some (conflictDiagnostic "F" L) else None
       end).
Proof.
  split; [vm_compute; reflexivity|].
  apply (replay_baseline_and_parent_writes ex_program_c2 "F" ex_effects_F 2 [] ex_state_c2).
  vm_compute; reflexivity.
Defined.

(** Counterexample to C2: [F] writes [obj.y] and then registers the nested
    candidate [H], which reads [obj.y] at location 40. [H] is recorded with
    parent [F], is replayed on the heap with [F]'s write applied, and the
    read is reported as a conflict with [F]. *)
Lemma parent_write_reported_against_nested :
  (let r := checkThatFunctionsAreIndependent ex_program_c2 10 (initialState [(VFun 1, None)]) in
   (fst r, log (snd r), nmap_get 2 (writeEffects (snd r)))) =
  (Err FatalError,
   [EvBeginOptimizing 0 1; EvEvaluatePure 1; EvBeginOptimizing 1 2; EvEvaluatePure 2;
    EvEndOptimizing 1; EvEndOptimizing 0;
    EvReplay 2 [((100, "y"%string), 1)]; EvReplay 1 [];
    EvHandleError (conflictDiagnostic "F" 40)],
   Some (mkAdditionalFunctionEffects (mkEffects CNormal [] []) (Some 1))).
Proof. vm_compute; reflexivity. Qed.

(** ** C3: one diagnostic per location *)

(** Claim C3 (amended). The conflicts collected over all ordered pairs of
    distinct candidates have pairwise distinct locations, each entry being
    the PP1003 diagnostic of its location, and they are exactly the
    diagnostics reported before the single [FatalError]. If candidate [A]
    writes a binding that the replay of another candidate [B] reads or
    writes at [L] (or enumerates an object [A] writes at [L]), the collection has an entry
    [d] at [L]; [d] names the first candidate, in the iteration order, whose
    writes the replay of another candidate hits at [L] ([firstWriterAt]),
    which is [A] when no other candidate's writes are hit at [L]. *)
Theorem one_diagnostic_per_location (P : Program) (s : St) (A B : FunId)
  (fvA : FunctionValue) (afeA : AdditionalFunctionEffects) (L : Loc)
  (Hwf : forallb (wellFormedCandidate P (writeEffects s)) (additionalFunctions s) = true)
  (HA : In A (additionalFunctions s)) (HB : In B (additionalFunctions s)) (Hne : A <> B)
  (HfA : lookupFunction P A = Some fvA) (HgA : nmap_get A (writeEffects s) = Some afeA)
  (Hhit : replayHits P (writeEffects s) (heap s) (effects afeA) B L = true) :
  let fs := additionalFunctions s in
  let c := allResult P (writeEffects s) (heap s) fs fs [] in
  exists s' d,
    verifyIndependence P mayTerminateAbruptlyAsWritten s = (Err FatalError, s') /\
    log s' = log s ++ allEvents P (writeEffects s) (heap s) fs fs ++
             map (fun kv => EvHandleError (snd kv)) c /\
    NoDup (map fst c) /\
    (forall k v, In (k, v) c -> location v = Some k /\ errorCode v = "PP1003"%string) /\
    nmap_get L c = Some d /\
    (exists W fvW, firstWriterAt P (writeEffects s) (heap s) fs fs L = Some W /\
       lookupFunction P W = Some fvW /\ d = conflictDiagnostic (functionName fvW) L) /\
    (onlyWriterAt P (writeEffects s) (heap s) fs A L = true ->
     d = conflictDiagnostic (functionName fvA) L).
Proof.
  intros fs c; subst fs c.
  destruct (verifyIndependence_summary P mayTerminateAbruptlyAsWritten s Hwf
              (fun f afe _ _ => mayTerminateAbruptlyAsWritten_false _)) as [s' [E [_ Hl]]].
  pose proof (wellFormed_candidateInfo _ _ _ Hwf) as Hinfo.
  assert (HiA : candidateInfo P (writeEffects s) A = Some (functionName fvA, effects afeA))
    by (unfold candidateInfo; now rewrite HfA, HgA).
  pose proof (allResult_has P (writeEffects s) (heap s) _ _ [] L A _ _ B Hinfo HA HiA HB Hne Hhit)
    as Hhas.
  apply nmap_has_get in Hhas as [d Hd].
  exists s', d; split.
  { rewrite E; clear - Hd; revert Hd.
    destruct (allResult _ _ _ _ _ _); [discriminate|reflexivity]. }
  split; [exact Hl|]; split; [apply allResult_nodup; constructor|]; split.
  { intros k v Hin.
    destruct (allResult_new _ _ _ _ _ _ _ _ Hin) as [[]|[f1 [n [e1 [f2 [_ [_ [_ [_ [_ ->]]]]]]]]]].
    split; reflexivity. }
  split; [exact Hd|].
  split.
  { rewrite allResult_get in Hd by exact Hinfo; simpl in Hd.
    destruct (firstWriterAt _ _ _ _ _ L) as [W|]; [|discriminate].
    exists W; unfold candidateInfo in Hd.
    destruct (lookupFunction P W) as [fvW|]; [|discriminate].
    destruct (nmap_get W (writeEffects s)); [|discriminate].
    simpl in Hd; inversion Hd; subst; eauto. }
  intros Honly.
  destruct (allResult_new _ _ _ _ _ _ _ _ (nmap_get_In _ _ _ Hd))
    as [[]|[f1 [n [e1 [f2 [Hin1 [Hi1 [Hin2 [Hne12 [Hh12 ->]]]]]]]]]].
  unfold onlyWriterAt in Honly; rewrite forallb_forall in Honly.
  specialize (Honly f1 Hin1); rewrite Hi1 in Honly.
  destruct (Nat.eqb f1 A) eqn:EA.
  - apply Nat.eqb_eq in EA; subst f1. rewrite HiA in Hi1; now inversion Hi1.
  - simpl in Honly; rewrite forallb_forall in Honly.
    specialize (Honly f2 Hin2).
    apply Nat.eqb_neq in Hne12; rewrite Hne12, Hh12 in Honly; discriminate.
Qed.

Lemma one_diagnostic_per_location_witness :
  forallb (wellFormedCandidate ex_program_c3_single (writeEffects ex_state_c3))
    (additionalFunctions ex_state_c3) = true /\
  In 1 (additionalFunctions ex_state_c3) /\ In 2 (additionalFunctions ex_state_c3) /\
  lookupFunction ex_program_c3_single 1 = Some ex_c_writer /\
  nmap_get 1 (writeEffects ex_state_c3) = Some ex_afe_c_writer /\
  replayHits ex_program_c3_single (writeEffects ex_state_c3) (heap ex_state_c3)
    (effects ex_afe_c_writer) 2 7 = true /\
  onlyWriterAt ex_program_c3_single (writeEffects ex_state_c3) (heap ex_state_c3)
    (additionalFunctions ex_state_c3) 1 7 = true /\
  (let fs := additionalFunctions ex_state_c3 in
   let c := allResult ex_program_c3_single (writeEffects ex_state_c3) (heap ex_state_c3) fs fs [] in
   exists s' d,
     verifyIndependence ex_program_c3_single mayTerminateAbruptlyAsWritten ex_state_c3 =
       (Err FatalError, s') /\
     log s' = log ex_state_c3 ++
              allEvents ex_program_c3_single (writeEffects ex_state_c3) (heap ex_state_c3) fs fs ++
              map (fun kv => EvHandleError (snd kv)) c /\
     NoDup (map fst c) /\
     (forall k v, In (k, v) c -> location v = Some k /\ errorCode v = "PP1003"%string) /\
     nmap_get 7 c = Some d /\
     (exists W fvW, firstWriterAt ex_program_c3_single (writeEffects ex_state_c3)
                      (heap ex_state_c3) fs fs 7 = Some W /\
        lookupFunction ex_program_c3_single W = Some fvW /\
        d = conflictDiagnostic (functionName fvW) 7) /\
     (onlyWriterAt ex_program_c3_single (writeEffects ex_state_c3) (heap ex_state_c3) fs 1 7 = true ->
      d = conflictDiagnostic (functionName ex_c_writer) 7)).
Proof.
  split; [vm_compute; reflexivity|].
  split; [vm_compute; auto|]. split; [vm_compute; auto|].
  split; [reflexivity|]. split; [vm_compute; reflexivity|].
  split; [vm_compute; reflexivity|]. split; [vm_compute; reflexivity|].
  apply (one_diagnostic_per_location ex_program_c3_single ex_state_c3 1 2 ex_c_writer
           ex_afe_c_writer 7); vm_compute; auto; discriminate.
Defined.

(** Counterexample to the attribution in C3: [C] and [A] both write
    [obj.x] (at locations 20 and 21) and [B] reads it twice at location 7.
    A single diagnostic is reported at 7, and it names [C], the writer
    reached first, not [A]. The writes of [C] and [A] are accesses too, so
    each one is reported against the other writer: three diagnostics in
    all. *)
Lemma conflict_attributed_to_first_writer :
  (let r := checkThatFunctionsAreIndependent ex_program_c3 10
              (initialState [(VFun 1, None); (VFun 2, None); (VFun 3, None)]) in
   (fst r, log (snd r))) =
  (Err FatalError,
   [EvBeginOptimizing 0 1; EvEvaluatePure 1; EvEndOptimizing 0;
    EvBeginOptimizing 1 2; EvEvaluatePure 2; EvEndOptimizing 1;
    EvBeginOptimizing 2 3; EvEvaluatePure 3; EvEndOptimizing 2;
    EvReplay 2 []; EvReplay 3 []; EvReplay 1 []; EvReplay 3 []; EvReplay 1 []; EvReplay 2 [];
    EvHandleError (conflictDiagnostic "C" 21); EvHandleError (conflictDiagnostic "C" 7);
    EvHandleError (conflictDiagnostic "A" 20)]).
Proof. vm_compute; reflexivity. Qed.

(** ** C5: exhaustive conflict detection *)

(** Claim C5. On well-formed candidates, verification first replays every
    ordered pair of distinct candidates, collecting the conflicts
    ([allResult]) and reporting nothing; then, if the collection is empty,
    it returns normally, and otherwise it reports every collected
    diagnostic, in order, and throws a single [FatalError]. *)
Theorem conflicts_reported_together (P : Program) (s : St)
  (Hwf : forallb (wellFormedCandidate P (writeEffects s)) (additionalFunctions s) = true) :
  let fs := additionalFunctions s in
  let c := allResult P (writeEffects s) (heap s) fs fs [] in
  exists s', verifyIndependence P mayTerminateAbruptlyAsWritten s =
    (match c with [] => Ok tt | _ :: _ => Err FatalError end, s') /\
    log s' = log s ++ allEvents P (writeEffects s) (heap s) fs fs ++
             map (fun kv => EvHandleError (snd kv)) c.
Proof.
  destruct (verifyIndependence_summary P mayTerminateAbruptlyAsWritten s Hwf
              (fun f afe _ _ => mayTerminateAbruptlyAsWritten_false _)) as [s' [E [_ L]]].
  exists s'; split; assumption.
Qed.

Lemma conflicts_reported_together_witness :
  forallb (wellFormedCandidate ex_program_c3 (writeEffects ex_state_c5))
    (additionalFunctions ex_state_c5) = true /\
  (let fs := additionalFunctions ex_state_c5 in
   let c := allResult ex_program_c3 (writeEffects ex_state_c5) (heap ex_state_c5) fs fs [] in
   exists s', verifyIndependence ex_program_c3 mayTerminateAbruptlyAsWritten ex_state_c5 =
     (match c with [] => Ok tt | _ :: _ => Err FatalError end, s') /\
     log s' = log ex_state_c5 ++
              allEvents ex_program_c3 (writeEffects ex_state_c5) (heap ex_state_c5) fs fs ++
              map (fun kv => EvHandleError (snd kv)) c).
Proof.
  split; [vm_compute; reflexivity|].
  apply (conflicts_reported_together ex_program_c3 ex_state_c5); vm_compute; reflexivity.
Defined.

(** * The capture phase: invariants *)

Lemma Grow_refl P s : Grow P s s.
Proof.
  unfold Grow; split; [reflexivity|]; split; [auto|]; split; [auto|]; split; [auto|].
  split; [auto|]; split; [auto|]; split; [lia|].
  exists []; rewrite app_nil_r, Nat.sub_diag; auto.
Qed.

Lemma Grow_trans P s1 s2 s3 : Grow P s1 s2 -> Grow P s2 s3 -> Grow P s1 s3.
Proof.
  intros (H1 & W1 & A1 & B1 & R1 & N1 & I1 & evs1 & L1 & E1)
         (H2 & W2 & A2 & B2 & R2 & N2 & I2 & evs2 & L2 & E2).
  split; [congruence|]; split; [auto|]; split; [auto|]; split; [|split; [auto|];
    split; [auto|]; split; [lia|]].
  - intros g Hg; destruct (B2 g Hg) as [Hin|Hh]; auto.
    destruct (B1 g Hin) as [Hin'|Hh']; auto.
  - exists (evs1 ++ evs2); split; [rewrite L2, L1, app_assoc; reflexivity|].
    unfold beginIds in *; rewrite flat_map_app, E1, E2.
    replace (optimizedFunctionId s3 - optimizedFunctionId s1)
      with ((optimizedFunctionId s2 - optimizedFunctionId s1) +
            (optimizedFunctionId s3 - optimizedFunctionId s2)) by lia.
    rewrite seq_app; f_equal; f_equal; lia.
Qed.

Lemma Grow_basic P s s' evs :
  heap s' = heap s -> writeEffects s' = writeEffects s ->
  additionalFunctions s' = additionalFunctions s ->
  optimizedFunctionId s' = optimizedFunctionId s ->
  log s' = log s ++ evs -> beginIds evs = [] -> Grow P s s'.
Proof.
  intros Hh Hw Ha Hi Hl He; unfold Grow.
  rewrite Hh, Hw, Ha, Hi, Nat.sub_diag.
  split; [reflexivity|]; split; [auto|]; split; [auto|]; split; [auto|].
  split; [auto|]; split; [auto|]; split; [lia|].
  exists evs; auto.
Qed.

Ltac setters := unfold set_optimizedFunctions, set_heap, set_writeEffects,
  set_optimizedFunctionId, set_additionalFunctionStack, set_additionalFunctions,
  push_log in *; simpl in *.

Lemma pres_ret P {A} (a : A) : Preserves P (ret a).
Proof. intros s s' x H; unfold ret in H; inversion H; subst; apply Grow_refl. Qed.

Lemma pres_throw P {A} e : Preserves P (@throw A e).
Proof. intros s s' x H; discriminate. Qed.

Lemma pres_bind P {A B} (m : M A) (k : A -> M B) :
  Preserves P m -> (forall a, Preserves P (k a)) -> Preserves P (bind m k).
Proof.
  intros Hm Hk s s' x H; unfold bind in H.
  destruct (m s) as [[a|e] s1] eqn:E; [|discriminate].
  eapply Grow_trans; [eapply Hm; eauto|eapply Hk; eauto].
Qed.

Lemma presR_bind P f {A B} (m : M A) (k : A -> M B) :
  PreservesR P f m -> (forall a, Preserves P (k a)) -> PreservesR P f (bind m k).
Proof.
  intros Hm Hk s s' x H; unfold bind in H.
  destruct (m s) as [[a|e] s1] eqn:E; [|discriminate].
  destruct (Hm _ _ _ E) as [G1 Hf].
  pose proof (Hk a s1 s' x H) as G2.
  split; [eapply Grow_trans; eauto|]. apply G2; exact Hf.
Qed.

Lemma pres_get P : Preserves P get.
Proof. intros s s' x H; unfold get in H; inversion H; subst; apply Grow_refl. Qed.

Lemma pres_invariant P b : Preserves P (invariant b).
Proof. unfold invariant; destruct b; [apply pres_ret|apply pres_throw]. Qed.

Lemma pres_emit P ev : beginIds [ev] = [] -> Preserves P (emit ev).
Proof.
  intros He s s' x H; unfold emit, modify in H; inversion H; subst.
  apply (Grow_basic P s _ [ev]); setters; auto.
Qed.

Lemma pres_handleError P d : Preserves P (handleError d).
Proof.
  intros s s' x H; unfold handleError in H; inversion H; subst.
  apply (Grow_basic P s _ [EvHandleError d]); setters; auto.
Qed.

Lemma pres_forEach P {A} (l : list A) (g : A -> M unit) :
  (forall a, Preserves P (g a)) -> Preserves P (forEach l g).
Proof.
  intros Hg; induction l as [|a r IH]; simpl; [apply pres_ret|].
  apply pres_bind; auto.
Qed.

Lemma forEach_records P {A} (l : list A) (key : A -> FunId) (g : A -> M unit) s s' :
  (forall a, In a l -> PreservesR P (key a) (g a)) ->
  forEach l g s = (Ok tt, s') ->
  Grow P s s' /\ forall a, In a l -> nmap_has (key a) (writeEffects s') = true.
Proof.
  revert s; induction l as [|a r IH]; intros s Hg H; simpl in H.
  - unfold ret in H; inversion H; subst; split; [apply Grow_refl|intros _ []].
  - unfold bind in H; destruct (g a s) as [[[]|e] s1] eqn:E; [|discriminate].
    destruct (Hg a (or_introl eq_refl) _ _ _ E) as [G1 Ha].
    destruct (IH s1 (fun b Hb => Hg b (or_intror Hb)) H) as [G2 Hr].
    split; [eapply Grow_trans; eauto|].
    intros b [<-|Hb]; auto. apply G2; exact Ha.
Qed.

Lemma pres_generate P l : Preserves P (generateOptimizedFunctions P l).
Proof.
  induction l as [|[v am] r IH]; simpl; [apply pres_ret|].
  destruct (match v with VAbstract _ _ => _unwrapAbstract v | _ => v end) as [f| | | |];
    try apply pres_throw.
  destruct (lookupFunction P f) as [fv|]; [|apply pres_throw].
  destruct (isValid fv).
  - apply pres_bind; auto; intros; apply pres_ret.
  - apply pres_bind; [apply pres_handleError|].
    intros []; auto; apply pres_throw.
Qed.

Lemma pres_generateFromRealm P : Preserves P (_generateOptimizedFunctionsFromRealm P).
Proof.
  unfold _generateOptimizedFunctionsFromRealm; apply pres_bind; [apply pres_get|].
  intros; apply pres_generate.
Qed.

Lemma pres_withEffects P {A} e (b : M A) :
  Preserves P b -> Preserves P (withEffectsAppliedInGlobalEnv e b).
Proof.
  intros Hb s s' x H; unfold withEffectsAppliedInGlobalEnv in H.
  destruct (b (set_heap (applyEffects (heap s) e) s)) as [r s1] eqn:E.
  inversion H; subst.
  destruct (Hb _ _ _ E) as (H1 & W1 & A1 & B1 & R1 & N1 & I1 & evs & L1 & E1).
  setters. split; [reflexivity|]; split; [auto|]; split; [auto|]; split; [auto|].
  split; [auto|]; split; [auto|]; split; [auto|]. exists evs; auto.
Qed.

Lemma nmap_has_set {V} k g (v : V) m :
  nmap_has g m = true -> nmap_has g (nmap_set k v m) = true.
Proof.
  unfold nmap_has; destruct (Nat.eq_dec g k) as [->|Hne].
  - now rewrite nmap_get_set.
  - now rewrite nmap_get_set_other.
Qed.

Lemma nmap_has_In {V} k (v : V) m : In (k, v) m -> nmap_has k m = true.
Proof.
  induction m as [|[k' v'] r IH]; simpl; [intros []|].
  unfold nmap_has; simpl; destruct (Nat.eqb k k') eqn:E; auto.
  intros [H|H]; [inversion H; subst; now rewrite Nat.eqb_refl in E|].
  now apply IH.
Qed.

Lemma getDeclaring_recorded we f p :
  getDeclaringAdditionalFunction we f = Some p -> nmap_has p we = true.
Proof.
  intros H; pose proof (getDeclaringAdditionalFunction_spec we f) as Hs; rewrite H in Hs.
  destruct Hs as [pre [e [post [-> _]]]].
  apply (nmap_has_In p e); apply in_or_app; right; now left.
Qed.

Lemma callOfFunction_callable P f am s fv s' :
  _callOfFunction P f am s = (Ok fv, s') -> callable fv = true.
Proof.
  unfold _callOfFunction; destruct (lookupFunction P f) as [fv0|]; [|unfold throw; congruence].
  unfold callable; destruct (Nat.ltb 0 (getLength fv0)) eqn:Hl; simpl.
  - unfold bind; destruct (checkFormalParameters fv0 (formalParameters fv0) s)
      as [[[]|e] s1] eqn:Hc; [|unfold ret; congruence].
    apply checkFormalParameters_ok_inv in Hc; unfold ret; intro H; inversion H; subst.
    now rewrite Hc, orb_true_r.
  - unfold bind, ret; intro H; inversion H; subst; now rewrite Hl.
Qed.

Lemma recordsWellFormed_set P we f fv afe :
  recordsWellFormed P we -> lookupFunction P f = Some fv -> callable fv = true ->
  match parentAdditionalFunction afe with Some p => nmap_has p we = true | None => True end ->
  recordsWellFormed P (nmap_set f afe we).
Proof.
  intros Hw Hf Hc Hp g a Hg.
  destruct (Nat.eq_dec g f) as [->|Hne].
  - rewrite nmap_get_set in Hg; inversion Hg; subst.
    split; [eauto|]. destruct (parentAdditionalFunction a); auto. now apply nmap_has_set.
  - rewrite nmap_get_set_other in Hg by exact Hne.
    destruct (Hw g a Hg) as [Hl Hpa]; split; auto.
    destruct (parentAdditionalFunction a); auto. now apply nmap_has_set.
Qed.

Lemma presR_captureAndRecord P f am : PreservesR P f (captureAndRecord P f am).
Proof.
  intros s s' x H.
  destruct (_callOfFunction P f am (set_additionalFunctionStack (f :: additionalFunctionStack s) s))
    as [[fv|e] s1] eqn:Hc.
  2:{ rewrite (captureAndRecord_call_fails _ _ _ _ _ _ Hc) in H; discriminate. }
  pose proof (callOfFunction_callable _ _ _ _ _ _ Hc) as Hcall.
  pose proof (callOfFunction_state _ _ _ _ _ _ Hc) as [_ Hf].
  rewrite (captureAndRecord_eq P f am s fv (callOfFunction_success _ _ _ _ _ _ Hc)) in H.
  cbv zeta in H.
  set (afe := mkAdditionalFunctionEffects (runEffects (exec (heap s) (body fv)))
                (getDeclaringAdditionalFunction (writeEffects s) f)) in H.
  assert (Hp : match parentAdditionalFunction afe with
               | Some p => nmap_has p (writeEffects s) = true | None => True end).
  { simpl. destruct (getDeclaringAdditionalFunction (writeEffects s) f) eqn:E; auto.
    eapply getDeclaring_recorded; eauto. }
  assert (G : forall evs, beginIds evs = [] ->
            forall s2, heap s2 = heap s -> writeEffects s2 = nmap_set f afe (writeEffects s) ->
            additionalFunctions s2 = additionalFunctions s ->
            optimizedFunctionId s2 = optimizedFunctionId s -> log s2 = log s ++ evs ->
            Grow P s s2 /\ nmap_has f (writeEffects s2) = true).
  { intros evs He s2 H1 H2 H3 H4 H5. rewrite H2.
    split; [|unfold nmap_has; now rewrite nmap_get_set].
    unfold Grow; rewrite H1, H2, H3, H4, Nat.sub_diag.
    split; [reflexivity|]; split; [intros; now apply nmap_has_set|].
    split; [auto|]; split; [auto|]; split; [intros Hw; eapply recordsWellFormed_set; eauto|].
    split; [auto|]; split; [lia|]. exists evs; auto. }
  destruct (nmap_has f (writeEffects s)).
  - destruct (errorHandler s (doubleOptimizationDiagnostic fv)); [|discriminate].
    inversion H; subst.
    apply (G [EvEvaluatePure (fid fv); EvHandleError (doubleOptimizationDiagnostic fv)]);
      setters; auto. now rewrite <- app_assoc.
  - inversion H; subst.
    apply (G [EvEvaluatePure (fid fv)]); setters; auto.
Qed.

Lemma presR_withEmpty P f am (func : FunId -> option ArgModel -> M unit) :
  PreservesR P f (func f am) ->
  PreservesR P f (_withEmptyOptimizedFunctionList P (f, am) func).
Proof.
  intros Hf s s' x H.
  unfold _withEmptyOptimizedFunctionList, bind, get, modify, invariant, emit, ret, throw in H.
  destruct (lookupFunction P f); [|discriminate].
  simpl in H.
  set (s1 := push_log (EvBeginOptimizing (optimizedFunctionId s) f)
               (set_optimizedFunctionId (S (optimizedFunctionId s))
                  (set_optimizedFunctions [] s))) in H.
  destruct (func f am s1) as [[[]|e] s2] eqn:E; [|discriminate].
  inversion H; subst; clear H.
  destruct (Hf _ _ _ E) as [G2 Hr].
  assert (G1 : Grow P s s1).
  { unfold Grow, s1; setters.
    split; [reflexivity|]; split; [auto|]; split; [auto|]; split; [auto|].
    split; [auto|]; split; [auto|]; split; [lia|].
    exists [EvBeginOptimizing (optimizedFunctionId s) f]; split; [reflexivity|].
    assert (E1 : forall n, match n with 0 => S n | S l => n - l end = 1)
      by (intros [|n]; lia).
    rewrite E1; reflexivity. }
  assert (G3 : Grow P s2 (set_optimizedFunctions
                (mergeOptimizedFunctions (optimizedFunctions s) (optimizedFunctions s2))
                (push_log (EvEndOptimizing (optimizedFunctionId s)) s2))).
  { apply (Grow_basic P s2 _ [EvEndOptimizing (optimizedFunctionId s)]); setters; auto. }
  split; [eapply Grow_trans; [exact G1|]; eapply Grow_trans; eauto|].
  setters; exact Hr.
Qed.

Lemma set_add_In x y l : In y (set_add x l) <-> x = y \/ In y l.
Proof.
  unfold set_add; destruct (existsb (Nat.eqb x) l) eqn:E.
  - apply existsb_exists in E as [z [Hz Hxz]]; apply Nat.eqb_eq in Hxz; subst z.
    split; auto. intros [->|H]; auto.
  - rewrite in_app_iff; simpl; split; intros [H|H]; auto.
    + destruct H as [H|[]]; auto.
Qed.

Lemma set_add_NoDup x l : NoDup l -> NoDup (set_add x l).
Proof.
  unfold set_add; destruct (existsb (Nat.eqb x) l) eqn:E; intros H; auto.
  apply NoDup_snoc; auto. intros Hin.
  assert (existsb (Nat.eqb x) l = true) by (apply existsb_exists; exists x; split; auto;
    apply Nat.eqb_refl). congruence.
Qed.

Lemma set_of_list_spec l :
  NoDup (set_of_list l) /\ forall y, In y (set_of_list l) <-> In y l.
Proof.
  unfold set_of_list.
  assert (G : forall acc, NoDup acc ->
            NoDup (fold_left (fun acc x => set_add x acc) l acc) /\
            forall y, In y (fold_left (fun acc x => set_add x acc) l acc) <-> In y acc \/ In y l).
  { induction l as [|x r IH]; intros acc Hacc; simpl.
    - split; auto. intros y; split; auto. intros [H|[]]; auto.
    - destruct (IH (set_add x acc) (set_add_NoDup x acc Hacc)) as [N Hi].
      split; auto. intros y; rewrite Hi, set_add_In. tauto. }
  destruct (G [] (NoDup_nil _)) as [N Hi]; split; auto.
  intros y; rewrite Hi; simpl; tauto.
Qed.

Lemma pres_add_then P g (m : M unit) :
  PreservesR P g m ->
  Preserves P (modify (fun s => set_additionalFunctions (set_add g (additionalFunctions s)) s) ;; m).
Proof.
  intros Hm s s' x H; unfold bind, modify in H.
  destruct (Hm _ _ _ H) as [(H1 & W1 & A1 & B1 & R1 & N1 & I1 & evs & L1 & E1) Hg].
  setters.
  split; [auto|]; split; [auto|].
  split; [intros y Hy; apply A1; apply set_add_In; auto|].
  split; [|split; [auto|]; split; [intros Hn; apply N1; now apply set_add_NoDup|];
           split; [auto|]; exists evs; auto].
  intros y Hy; destruct (B1 y Hy) as [Hin|Hh]; auto.
  apply set_add_In in Hin as [->|Hin]; auto.
Qed.

Lemma presR_recordWrite P fuel : forall f am,
  PreservesR P f (recordWriteEffectsForOptimizedFunctionAndNestedFunctions P fuel f am).
Proof.
  induction fuel as [|fuel IH]; intros f am; simpl.
  - intros s s' x H; discriminate.
  - apply presR_bind; [apply presR_captureAndRecord|]; intros afe.
    apply pres_bind.
    + apply pres_withEffects, pres_bind; [apply pres_generateFromRealm|]; intros l.
      apply pres_forEach; intros [g am'].
      apply pres_add_then; simpl. apply presR_withEmpty, IH.
    + intros _; apply pres_bind; [apply pres_get|]; intros s0.
      destruct (additionalFunctionStack s0) as [|top rest]; [apply pres_throw|].
      apply pres_bind; [|intros; apply pres_invariant].
      intros s s' x H; unfold modify in H; inversion H; subst.
      apply (Grow_basic P s _ []); setters; auto; now rewrite app_nil_r.
Qed.

Lemma capture_summary P fuel s s' :
  captureOptimizedFunctions P fuel s = (Ok tt, s') ->
  heap s' = heap s /\
  (recordsWellFormed P (writeEffects s) -> recordsWellFormed P (writeEffects s')) /\
  NoDup (additionalFunctions s') /\
  (forall g, In g (additionalFunctions s') -> nmap_has g (writeEffects s') = true) /\
  optimizedFunctionId s <= optimizedFunctionId s' /\
  (exists evs, log s' = log s ++ evs /\
     beginIds evs = seq (optimizedFunctionId s) (optimizedFunctionId s' - optimizedFunctionId s)).
Proof.
  unfold captureOptimizedFunctions, bind at 1.
  destruct (_generateOptimizedFunctionsFromRealm P s) as [[l|e] s1] eqn:E1; [|discriminate].
  pose proof (pres_generateFromRealm P _ _ _ E1) as G1.
  unfold bind at 1, modify at 1, bind at 1, modify at 1, bind at 1.
  set (s3 := set_additionalFunctions (set_of_list (map fst l))
               (set_additionalFunctionStack [] s1)).
  destruct (forEach l (fun funcObject => _withEmptyOptimizedFunctionList P funcObject
              (recordWriteEffectsForOptimizedFunctionAndNestedFunctions P fuel)) s3)
    as [[[]|e] s4] eqn:E4; [|discriminate].
  unfold bind, get, invariant, ret, throw.
  destruct (additionalFunctionStack s4); [|discriminate].
  intros H; inversion H; subst s'; clear H.
  destruct (forEach_records P l fst (fun funcObject => _withEmptyOptimizedFunctionList P funcObject
              (recordWriteEffectsForOptimizedFunctionAndNestedFunctions P fuel)) s3 s4
              ltac:(intros [g am] _; apply presR_withEmpty, presR_recordWrite) E4)
    as [G4 Hrec].
  destruct G1 as (H1 & W1 & A1 & B1 & R1 & N1 & I1 & evs1 & L1 & E1').
  destruct G4 as (H4 & W4 & A4 & B4 & R4 & N4 & I4 & evs4 & L4 & E4').
  destruct (set_of_list_spec (map fst l)) as [Nd Hin].
  unfold s3 in *; setters.
  split; [congruence|]; split; [auto|]; split; [auto|]; split.
  { intros g Hg; destruct (B4 g Hg) as [Hg'|Hh]; auto.
    apply Hin, in_map_iff in Hg' as [[g' am] [<- Hg']]. exact (Hrec _ Hg'). }
  split; [lia|].
  exists (evs1 ++ evs4); split; [rewrite L4, L1, app_assoc; reflexivity|].
  unfold beginIds in *; rewrite flat_map_app, E1', E4'.
  replace (optimizedFunctionId s4 - optimizedFunctionId s)
    with ((optimizedFunctionId s1 - optimizedFunctionId s) +
          (optimizedFunctionId s4 - optimizedFunctionId s1)) by lia.
  rewrite seq_app; f_equal; f_equal; lia.
Qed.

Lemma recordsWellFormed_nil P : recordsWellFormed P [].
Proof. intros f afe H; discriminate. Qed.

Lemma recorded_wellFormed P we g :
  recordsWellFormed P we -> nmap_has g we = true -> wellFormedCandidate P we g = true.
Proof.
  intros Hw Hh; apply nmap_has_get in Hh as [afe Hg].
  destruct (Hw g afe Hg) as [[fv [Hf Hc]] Hp].
  unfold wellFormedCandidate; rewrite Hf, Hg, Hc; simpl.
  destruct (parentAdditionalFunction afe); auto.
Qed.

(** X1. Starting from an empty [writeEffects], a capture phase that
    returns normally leaves every candidate recorded, with a record the
    verification phase can use: the function is one [_callOfFunction]
    accepts and the parent it names is recorded too. *)
Theorem capture_candidates_well_formed (P : Program) (fuel : nat) (s : St)
  (Hfresh : writeEffects s = [])
  (Hok : fst (captureOptimizedFunctions P fuel s) = Ok tt) :
  let s' := snd (captureOptimizedFunctions P fuel s) in
  forallb (wellFormedCandidate P (writeEffects s')) (additionalFunctions s') = true.
Proof.
  intros s'.
  destruct (captureOptimizedFunctions P fuel s) as [r s1] eqn:E; simpl in *; subst r s'.
  destruct (capture_summary P fuel s s1 E) as (_ & R & _ & Hrec & _).
  rewrite Hfresh in R; specialize (R (recordsWellFormed_nil P)).
  apply forallb_forall; intros g Hg; apply recorded_wellFormed; auto.
Qed.


(** X3. A capture phase that returns normally only appends to the log, and
    the ids of its [beginOptimizingFunction] events are consecutive, starting
    at the counter's initial value and ending before its final value. *)
Theorem capture_tracer_ids_consecutive (P : Program) (fuel : nat) (s : St)
  (Hok : fst (captureOptimizedFunctions P fuel s) = Ok tt) :
  let s' := snd (captureOptimizedFunctions P fuel s) in
  optimizedFunctionId s <= optimizedFunctionId s' /\
  exists evs, log s' = log s ++ evs /\
    beginIds evs = seq (optimizedFunctionId s) (optimizedFunctionId s' - optimizedFunctionId s).
Proof.
  intros s'.
  destruct (captureOptimizedFunctions P fuel s) as [r s1] eqn:E; simpl in *; subst r s'.
  destruct (capture_summary P fuel s s1 E) as (_ & _ & _ & _ & I & L); auto.
Qed.


(** X5. Starting from an empty [writeEffects], once the capture phase
    returns normally, [checkThatFunctionsAreIndependent] fails exactly when
    the all-pairs replay finds a conflict. It leaves [writeEffects] as the
    capture recorded it and the heap unchanged, and it logs the replays and
    then one diagnostic per conflict. *)
Theorem check_outcome_after_capture (P : Program) (fuel : nat) (s : St)
  (Hfresh : writeEffects s = [])
  (Hok : fst (captureOptimizedFunctions P fuel s) = Ok tt) :
  let s1 := snd (captureOptimizedFunctions P fuel s) in
  let fs := additionalFunctions s1 in
  let c := allResult P (writeEffects s1) (heap s1) fs fs [] in
  exists s', checkThatFunctionsAreIndependent P fuel s =
    (match c with [] => Ok tt | _ :: _ => Err FatalError end, s') /\
    writeEffects s' = writeEffects s1 /\ heap s' = heap s /\
    log s' = log s1 ++ allEvents P (writeEffects s1) (heap s1) fs fs ++
             map (fun kv => EvHandleError (snd kv)) c.
Proof.
  intros s1 fs c.
  destruct (captureOptimizedFunctions P fuel s) as [r s2] eqn:E; simpl in *; subst r s1.
  destruct (capture_summary P fuel s s2 E) as (Hh & R & _ & Hrec & _).
  rewrite Hfresh in R; specialize (R (recordsWellFormed_nil P)).
  assert (Hw : forallb (wellFormedCandidate P (writeEffects s2)) (additionalFunctions s2) = true)
    by (apply forallb_forall; intros g Hg; apply recorded_wellFormed; auto).
  destruct (verifyIndependence_summary P mayTerminateAbruptlyAsWritten s2 Hw
              (fun f afe _ _ => mayTerminateAbruptlyAsWritten_false _)) as [s' [V [C L]]].
  exists s'; unfold checkThatFunctionsAreIndependent, bind at 1; rewrite E, V.
  destruct C as [C1 [C2 _]].
  split; [reflexivity|]; split; [exact C2|]; split; [congruence|exact L].
Qed.

Lemma capture_candidates_well_formed_witness :
  writeEffects (initialState ex_registered_c3) = [] /\
  fst (captureOptimizedFunctions ex_program_c3 10 (initialState ex_registered_c3)) = Ok tt /\
  forallb (wellFormedCandidate ex_program_c3
            (writeEffects (snd (captureOptimizedFunctions ex_program_c3 10 (initialState ex_registered_c3)))))
          (additionalFunctions (snd (captureOptimizedFunctions ex_program_c3 10 (initialState ex_registered_c3)))) = true.
Proof.
  split; [reflexivity|]; split; [vm_compute; reflexivity|].
  apply (capture_candidates_well_formed ex_program_c3 10 (initialState ex_registered_c3));
    vm_compute; reflexivity.
Defined.

(** reportWriteConflicts *)

(** X6. [reportWriteConflicts] always returns normally, after one replay on
    the current heap that changes neither the heap nor [writeEffects]. It
    keeps every conflict already collected. It adds a PP1003 diagnostic
    naming [fname] at a location exactly when that location has no entry
    yet and the replay hits a write of [e1] there. *)
Theorem reportWriteConflicts_spec (P : Program) (fname : string) (c : Conflicts)
  (e1 : Effects) (call2 : FunctionValue) (s : St) :
  let accesses := runAccesses (exec (heap s) (body call2)) in
  exists c' s',
    reportWriteConflicts P fname c (modifiedProperties e1) call2 s = (Ok c', s') /\
    heap s' = heap s /\ writeEffects s' = writeEffects s /\
    log s' = log s ++ [EvReplay (fid call2) (heap s)] /\
    forall L, nmap_get L c' =
      match nmap_get L c with
      | Some d => Some d
      | None => if existsb (fun a => hits P e1 a L) accesses
                then Some (conflictDiagnostic fname L) else None
      end.
Proof.
  intros accesses.
  eexists; eexists; split.
  { unfold reportWriteConflicts, bind, get, emit, modify, ret; reflexivity. }
  setters; split; [reflexivity|]; split; [reflexivity|]; split; [reflexivity|].
  intros L; apply (replayedBy_get P fname e1 c accesses L).
Qed.

(** _callOfFunction *)

Lemma checkFormalParameters_spec fv ps s :
  checkFormalParameters fv ps s =
  if forallb isIdentifierParam ps then (Ok tt, s)
  else (Err FatalError, push_log (EvHandleError (nonIdentifierDiagnostic fv)) s).
Proof.
  revert s; induction ps as [|p r IH]; intros s; [reflexivity|].
  destruct p; simpl; auto.
Qed.

(** X7. [_callOfFunction] fails with an invariant violation on an unknown
    function. A function whose expected argument count is positive and one
    of whose parameters is not an identifier gets one PP1005 diagnostic and
    a [FatalError], whatever the error handler answers. Any other function
    is returned with the state unchanged. *)
Theorem callOfFunction_spec (P : Program) (f : FunId) (am : option ArgModel) (s : St) :
  _callOfFunction P f am s =
  match lookupFunction P f with
  | None => (Err InvariantViolation, s)
  | Some fv =>
      if Nat.ltb 0 (getLength fv) && negb (forallb isIdentifierParam (formalParameters fv))
      then (Err FatalError, push_log (EvHandleError (nonIdentifierDiagnostic fv)) s)
      else (Ok fv, s)
  end.
Proof.
  unfold _callOfFunction; destruct (lookupFunction P f) as [fv|]; [|reflexivity].
  destruct (Nat.ltb 0 (getLength fv)); simpl; [|reflexivity].
  unfold bind; rewrite checkFormalParameters_spec.
  destruct (forallb isIdentifierParam (formalParameters fv)); reflexivity.
Qed.

(** * Map lookups after the merge *)

Lemma value_eqb_sym a b : value_eqb a b = value_eqb b a.
Proof. destruct a, b; simpl; try reflexivity; apply Nat.eqb_sym. Qed.

Lemma value_eqb_trans a b c : value_eqb a b = true -> value_eqb b c = true -> value_eqb a c = true.
Proof.
  destruct a, b, c; simpl; try discriminate; try reflexivity;
  rewrite !Nat.eqb_eq; intros; subst; reflexivity.
Qed.

Lemma map_get_set {V} k k' (v : V) m :
  map_get k (map_set k' v m) = if value_eqb k k' then Some v else map_get k m.
Proof.
  induction m as [|[x vx] r IH]; simpl.
  - rewrite value_eqb_sym; destruct (value_eqb k' k); reflexivity.
  - destruct (value_eqb k' x) eqn:E1; simpl.
    + destruct (value_eqb k k') eqn:E2.
      * now rewrite (value_eqb_trans _ _ _ E2 E1).
      * destruct (value_eqb k x) eqn:E3; [|reflexivity].
        rewrite value_eqb_sym in E1.
        rewrite (value_eqb_trans _ _ _ E3 E1) in E2; discriminate.
    + rewrite IH.
      destruct (value_eqb k x) eqn:E3; [|reflexivity].
      destruct (value_eqb k k') eqn:E2; [|reflexivity].
      rewrite value_eqb_sym in E2.
      rewrite (value_eqb_trans _ _ _ E2 E3) in E1; discriminate.
Qed.

Lemma map_get_app {V} k (l1 l2 : list (Value * V)) :
  map_get k (l1 ++ l2) = match map_get k l1 with Some v => Some v | None => map_get k l2 end.
Proof.
  induction l1 as [|[x vx] r IH]; simpl; [reflexivity|].
  destruct (value_eqb k x); auto.
Qed.

(** X8. After the merge that ends [_withEmptyOptimizedFunctionList], a
    value registered in the saved list keeps the argument model of its
    last saved entry. A value registered only during the nested run keeps
    the model registered there. *)
Theorem merge_lookup (old cur : list (Value * option ArgModel)) (k : Value) :
  map_get k (mergeOptimizedFunctions old cur) =
  match map_get k (rev old) with
  | Some m => Some m
  | None => map_get k cur
  end.
Proof.
  unfold mergeOptimizedFunctions; revert cur.
  induction old as [|[x vx] r IH]; intros cur; simpl; [reflexivity|].
  rewrite IH, map_get_app, map_get_set; simpl.
  destruct (map_get k (rev r)); [reflexivity|].
  destruct (value_eqb k x); reflexivity.
Qed.

(** * Counting the replays *)

Lemma pairsEvents_absent we h0 f1 fs :
  ~ In f1 fs -> List.length (pairsEvents we h0 f1 fs) = List.length fs.
Proof.
  induction fs as [|x r IH]; intros Hn; simpl; [reflexivity|].
  destruct (Nat.eqb_spec f1 x) as [->|_]; [exfalso; apply Hn; now left|].
  simpl; rewrite IH; [reflexivity|]; intros Hi; apply Hn; now right.
Qed.

Lemma pairsEvents_length we h0 f1 fs :
  NoDup fs -> In f1 fs -> List.length (pairsEvents we h0 f1 fs) = List.length fs - 1.
Proof.
  induction fs as [|x r IH]; intros Hnd Hin; [destruct Hin|].
  inversion Hnd as [|? ? Hx Hr]; subst; simpl.
  destruct (Nat.eqb_spec f1 x) as [->|Hne].
  - rewrite pairsEvents_absent by exact Hx; lia.
  - destruct Hin as [->|Hin]; [congruence|].
    simpl; rewrite IH by assumption.
    destruct r; [destruct Hin|]; simpl; lia.
Qed.

Lemma pairsEvents_replays we h0 f1 fs : forallb isReplay (pairsEvents we h0 f1 fs) = true.
Proof.
  induction fs as [|x r IH]; simpl; [reflexivity|].
  destruct (Nat.eqb f1 x); simpl; auto.
Qed.

Lemma allEvents_length P we h0 all fs :
  NoDup all -> (forall f, In f fs -> In f all) ->
  Forall (fun f => candidateInfo P we f <> None) fs ->
  List.length (allEvents P we h0 all fs) = List.length fs * (List.length all - 1).
Proof.
  intros Hnd; induction fs as [|f r IH]; intros Hsub Hinfo; simpl; [reflexivity|].
  inversion Hinfo as [|? ? Hf Hr]; subst.
  destruct (candidateInfo P we f) eqn:E; [|congruence].
  rewrite length_app, pairsEvents_length, IH; auto.
  - intros g Hg; apply Hsub; now right.
  - apply Hsub; now left.
Qed.

Lemma allEvents_replays P we h0 all fs : forallb isReplay (allEvents P we h0 all fs) = true.
Proof.
  induction fs as [|f r IH]; simpl; [reflexivity|].
  destruct (candidateInfo P we f); [|reflexivity].
  rewrite forallb_app, pairsEvents_replays; exact IH.
Qed.

(** X9. With well-formed and distinct candidates, the verification phase
    logs exactly [n * (n - 1)] replays for [n] candidates, one per ordered
    pair of distinct candidates, followed only by diagnostics. *)
Theorem verification_replays_each_ordered_pair (P : Program) (s : St)
  (Hwf : forallb (wellFormedCandidate P (writeEffects s)) (additionalFunctions s) = true)
  (Hnd : NoDup (additionalFunctions s)) :
  let n := List.length (additionalFunctions s) in
  exists evs ds,
    log (snd (verifyIndependence P mayTerminateAbruptlyAsWritten s)) =
      log s ++ evs ++ map EvHandleError ds /\
    List.length evs = n * (n - 1) /\ forallb isReplay evs = true.
Proof.
  intros n.
  destruct (verifyIndependence_summary P mayTerminateAbruptlyAsWritten s Hwf
              (fun f afe _ _ => mayTerminateAbruptlyAsWritten_false _)) as [s' [E [_ Hl]]].
  rewrite E; simpl.
  eexists; eexists; split; [rewrite Hl, map_map; reflexivity|].
  split.
  - apply allEvents_length; auto. apply wellFormed_candidateInfo; exact Hwf.
  - apply allEvents_replays.
Qed.


(** X11. With at most one well-formed candidate, the verification phase
    passes without replaying anything and without logging anything. *)
Theorem verification_single_candidate_passes (P : Program) (s : St)
  (Hwf : forallb (wellFormedCandidate P (writeEffects s)) (additionalFunctions s) = true)
  (Hlen : List.length (additionalFunctions s) <= 1) :
  fst (verifyIndependence P mayTerminateAbruptlyAsWritten s) = Ok tt /\
  log (snd (verifyIndependence P mayTerminateAbruptlyAsWritten s)) = log s.
Proof.
  destruct (verifyIndependence_summary P mayTerminateAbruptlyAsWritten s Hwf
              (fun f afe _ _ => mayTerminateAbruptlyAsWritten_false _)) as [s' [E [_ Hl]]].
  rewrite E; simpl.
  destruct (additionalFunctions s) as [|f [|g r]] eqn:Ef; simpl in *; [|
    |lia].
  - now rewrite Hl, app_nil_r.
  - rewrite Nat.eqb_refl in *.
    destruct (candidateInfo P (writeEffects s) f) as [[nm e1]|]; simpl in *;
      split; try reflexivity; rewrite Hl; simpl; apply app_nil_r.
Qed.

(** * The traversal stack *)

Lemma ks_ret {A} (a : A) : KeepsStack (ret a).
Proof. intros s s' x H; unfold ret in H; congruence. Qed.

Lemma ks_throw {A} e : KeepsStack (@throw A e).
Proof. intros s s' x H; discriminate. Qed.

Lemma ks_bind {A B} (m : M A) (k : A -> M B) :
  KeepsStack m -> (forall a, KeepsStack (k a)) -> KeepsStack (bind m k).
Proof.
  intros Hm Hk s s' x H; unfold bind in H.
  destruct (m s) as [[a|e] s1] eqn:E; [|discriminate].
  rewrite (Hk a _ _ _ H); eapply Hm; eauto.
Qed.

Lemma ks_get : KeepsStack get.
Proof. intros s s' x H; unfold get in H; congruence. Qed.

Lemma ks_modify (g : St -> St) :
  (forall s, additionalFunctionStack (g s) = additionalFunctionStack s) -> KeepsStack (modify g).
Proof. intros Hg s s' x H; unfold modify in H; inversion H; subst; apply Hg. Qed.

Lemma ks_invariant b : KeepsStack (invariant b).
Proof. unfold invariant; destruct b; [apply ks_ret|apply ks_throw]. Qed.

Lemma ks_emit ev : KeepsStack (emit ev).
Proof. apply ks_modify; reflexivity. Qed.

Lemma ks_handleError d : KeepsStack (handleError d).
Proof. intros s s' x H; unfold handleError in H; inversion H; reflexivity. Qed.

Lemma ks_forEach {A} (l : list A) (g : A -> M unit) :
  (forall a, KeepsStack (g a)) -> KeepsStack (forEach l g).
Proof.
  intros Hg; induction l as [|a r IH]; simpl; [apply ks_ret|].
  apply ks_bind; auto.
Qed.

Lemma ks_generate P l : KeepsStack (generateOptimizedFunctions P l).
Proof.
  induction l as [|[v am] r IH]; simpl; [apply ks_ret|].
  destruct (match v with VAbstract _ _ => _unwrapAbstract v | _ => v end) as [f| | | |];
    try apply ks_throw.
  destruct (lookupFunction P f) as [fv|]; [|apply ks_throw].
  destruct (isValid fv).
  - apply ks_bind; auto; intros; apply ks_ret.
  - apply ks_bind; [apply ks_handleError|].
    intros []; auto; apply ks_throw.
Qed.

Lemma ks_generateFromRealm P : KeepsStack (_generateOptimizedFunctionsFromRealm P).
Proof.
  unfold _generateOptimizedFunctionsFromRealm; apply ks_bind; [apply ks_get|].
  intros; apply ks_generate.
Qed.

Lemma ks_withEffects {A} e (b : M A) :
  KeepsStack b -> KeepsStack (withEffectsAppliedInGlobalEnv e b).
Proof.
  intros Hb s s' x H; unfold withEffectsAppliedInGlobalEnv in H.
  destruct (b (set_heap (applyEffects (heap s) e) s)) as [r s1] eqn:E.
  inversion H; subst. setters. rewrite (Hb _ _ _ E); reflexivity.
Qed.

Lemma ks_withEmpty P entry (func : FunId -> option ArgModel -> M unit) :
  (forall f am, KeepsStack (func f am)) ->
  KeepsStack (_withEmptyOptimizedFunctionList P entry func).
Proof.
  intros Hf; destruct entry as [f am]; unfold _withEmptyOptimizedFunctionList.
  apply ks_bind; [apply ks_get|]; intros s0.
  apply ks_bind; [apply ks_modify; reflexivity|]; intros _.
  apply ks_bind; [apply ks_modify; reflexivity|]; intros _.
  apply ks_bind; [apply ks_invariant|]; intros _.
  apply ks_bind; [apply ks_emit|]; intros _.
  apply ks_bind; [apply Hf|]; intros _.
  apply ks_bind; [apply ks_emit|]; intros _.
  apply ks_modify; reflexivity.
Qed.

Lemma ks_checkFormalParameters fv ps : KeepsStack (checkFormalParameters fv ps).
Proof.
  induction ps as [|p r IH]; simpl; [apply ks_ret|].
  destruct p; auto.
  all: apply ks_bind; [apply ks_handleError|]; intros; apply ks_throw.
Qed.

Lemma ks_callOfFunction P f am : KeepsStack (_callOfFunction P f am).
Proof.
  unfold _callOfFunction; destruct (lookupFunction P f) as [fv|]; [|apply ks_throw].
  apply ks_bind; [|intros; apply ks_ret].
  destruct (Nat.ltb 0 (getLength fv)); [apply ks_checkFormalParameters|apply ks_ret].
Qed.

Lemma ks_evaluatePure fv : KeepsStack (evaluatePure fv).
Proof.
  unfold evaluatePure; apply ks_bind; [apply ks_get|]; intros s0.
  apply ks_bind; [apply ks_emit|]; intros _.
  apply ks_bind; [apply ks_modify; reflexivity|]; intros _; apply ks_ret.
Qed.

Lemma captureAndRecord_pushes P f am s s' x :
  captureAndRecord P f am s = (Ok x, s') ->
  additionalFunctionStack s' = f :: additionalFunctionStack s.
Proof.
  unfold captureAndRecord at 1; unfold bind at 1, modify at 1.
  intros H; change (f :: additionalFunctionStack s) with
    (additionalFunctionStack (set_additionalFunctionStack (f :: additionalFunctionStack s) s)).
  revert H; apply ks_bind; [apply ks_callOfFunction|]; intros call.
  apply ks_bind; [apply ks_evaluatePure|]; intros eff.
  apply ks_bind; [apply ks_get|]; intros s0.
  apply ks_bind.
  - destruct (nmap_has f (writeEffects s0)); [|apply ks_ret].
    apply ks_bind; [apply ks_handleError|]; intros []; [apply ks_ret|apply ks_throw].
  - intros _; apply ks_bind; [apply ks_modify; reflexivity|]; intros; apply ks_ret.
Qed.

Lemma ks_recordWrite P fuel : forall f am,
  KeepsStack (recordWriteEffectsForOptimizedFunctionAndNestedFunctions P fuel f am).
Proof.
  induction fuel as [|fuel IH]; intros f am s s' x H; simpl in H; [discriminate|].
  unfold bind at 1 in H.
  destruct (captureAndRecord P f am s) as [[afe|e] s1] eqn:E1; [|discriminate].
  apply captureAndRecord_pushes in E1.
  unfold bind at 1 in H.
  destruct (withEffectsAppliedInGlobalEnv (effects afe) _ s1) as [[[]|e] s2] eqn:E2;
    [|discriminate].
  assert (S2 : additionalFunctionStack s2 = additionalFunctionStack s1).
  { revert E2; apply ks_withEffects, ks_bind; [apply ks_generateFromRealm|]; intros l.
    apply ks_forEach; intros [g am'].
    apply ks_bind; [apply ks_modify; reflexivity|]; intros _.
    apply ks_withEmpty, IH. }
  unfold bind at 1, get at 1 in H.
  rewrite S2, E1 in H.
  unfold bind, modify, invariant in H.
  destruct (Nat.eqb f f); [|discriminate].
  unfold ret in H; inversion H; subst; reflexivity.
Qed.

(** X12. A successful run of [recordWriteEffectsForOptimizedFunctionAndNestedFunctions]
    leaves [additionalFunctionStack] as it found it: the function pushed at
    the start is the one popped at the end, also across nested optimized
    functions. *)
Theorem nested_capture_restores_stack (P : Program) (fuel : nat) (f : FunId)
  (am : option ArgModel) (s s' : St)
  (Hok : recordWriteEffectsForOptimizedFunctionAndNestedFunctions P fuel f am s = (Ok tt, s')) :
  additionalFunctionStack s' = additionalFunctionStack s.
Proof. exact (ks_recordWrite P fuel f am s s' tt Hok). Qed.

(** * React component tree roots *)

Section ReactProofs.

Variable P : Program.
Variable ReactComponentTreeConfig : Type.
Variable Get : Value -> string -> M Value.
Variable valueIsKnownReactAbstraction : Value -> bool.
Variable convertConfigObjectToReactComponentTreeConfig : Value -> M ReactComponentTreeConfig.
Variable currentLocation : St -> option Loc.
Variable sourceLocationOf : Value -> option SourceLocation.
Variable tryQueryGlobal : string -> M Value.
Variable getOwnPropertyKeysArray : Value -> M (list string).
Variable ownPropertyValue : St -> Value -> string -> option (option Value).

Local Abbreviation isECMAScriptSourceFunctionValue := (isECMAScriptSourceFunctionValue P).
Local Abbreviation invalidEntryDiagnostic := (invalidEntryDiagnostic currentLocation sourceLocationOf).
Local Abbreviation _optimizedFunctionEntryOfValue :=
  (_optimizedFunctionEntryOfValue P ReactComponentTreeConfig Get valueIsKnownReactAbstraction
     convertConfigObjectToReactComponentTreeConfig currentLocation sourceLocationOf).
Local Abbreviation collectEntries :=
  (collectEntries P ReactComponentTreeConfig Get valueIsKnownReactAbstraction
     convertConfigObjectToReactComponentTreeConfig currentLocation sourceLocationOf ownPropertyValue).
Local Abbreviation _generateInitialAdditionalFunctions :=
  (_generateInitialAdditionalFunctions P ReactComponentTreeConfig Get valueIsKnownReactAbstraction
     convertConfigObjectToReactComponentTreeConfig currentLocation sourceLocationOf tryQueryGlobal
     getOwnPropertyKeysArray ownPropertyValue).

Lemma entryOfValue_ok value s s' x :
  _optimizedFunctionEntryOfValue value s = (Ok x, s') ->
  exists e c, x = Some e /\ entryConfig e = Some c /\ entryArgModel e = None.
Proof.
  unfold _optimizedFunctionEntryOfValue, invariant, bind at 1.
  destruct (isObjectValue _); [|unfold throw; congruence].
  unfold ret at 1, bind at 1.
  destruct (Get _ "config" s) as [[config|e] s1]; [|congruence].
  unfold bind at 1.
  destruct (Get _ "rootComponent" s1) as [[root|e] s2]; [|congruence].
  destruct (_ && _).
  - unfold bind; destruct (convertConfigObjectToReactComponentTreeConfig config s2) as [[c|e] s3];
      [|congruence].
    unfold ret; intros H; inversion H; subst.
    exists (mkAdditionalFunctionEntry root (Some c) None), c; auto.
  - unfold bind, get, handleError, throw; congruence.
Qed.

(** X13. Every entry [_generateInitialAdditionalFunctions] returns carries
    a configuration and no argument model. This is what the invariant
    [invariant(config)] of [optimizeReactComponentTreeRoots] checks. *)
Theorem entries_carry_config globalKey s s' l :
  _generateInitialAdditionalFunctions globalKey s = (Ok l, s') ->
  forall e, In e l -> exists c, entryConfig e = Some c /\ entryArgModel e = None.
Proof.
  unfold _generateInitialAdditionalFunctions, bind at 1.
  destruct (tryQueryGlobal globalKey s) as [[m|err] s1]; [|congruence].
  unfold bind at 1, invariant; destruct (isObjectValue m); [|unfold throw; congruence].
  unfold ret at 1, bind at 1.
  destruct (getOwnPropertyKeysArray m s1) as [[keys|err] s2]; [|congruence].
  revert s2 l; induction keys as [|k r IH]; intros s2 l H; simpl in H.
  - unfold ret in H; inversion H; subst; intros _ [].
  - unfold bind at 1, get at 1 in H.
    destruct (ownPropertyValue s2 m k) as [[value|]|]; [|unfold throw in H; discriminate|eauto].
    unfold bind at 1 in H.
    destruct (_optimizedFunctionEntryOfValue value s2) as [[x|err] s3] eqn:E; [|discriminate].
    destruct (entryOfValue_ok _ _ _ _ E) as [e [c [-> [Hc Ha]]]].
    unfold bind in H; destruct (collectEntries m r s3) as [[rest|err] s4] eqn:E2; [|discriminate].
    unfold ret in H; inversion H; subst.
    intros e' [<-|Hin]; [eauto|].
    eapply (IH s3 rest); [|exact Hin]. exact E2.
Qed.

(** X14. When a registered React root has neither a valid [config] nor a
    valid [rootComponent], [_optimizedFunctionEntryOfValue] logs one PP0033
    diagnostic and fails with [FatalError], whatever the error handler
    answers. The location in the message prints the end line where the end
    column belongs. *)
Theorem invalid_entry_reported_then_fatal (value : Value) (l : SourceLocation)
  (s s1 s2 : St) (config root : Value)
  (Hobj : isObjectValue value = true)
  (Hloc : sourceLocationOf value = Some l)
  (Hc : Get value "config" s = (Ok config, s1))
  (Hr : Get value "rootComponent" s1 = (Ok root, s2))
  (Hinvalid : (isObjectValue config || match config with VUndefined => true | _ => false end) &&
              (isECMAScriptSourceFunctionValue root ||
               (match root with VAbstract _ _ => true | _ => false end &&
                valueIsKnownReactAbstraction root)) = false) :
  exists d,
    _optimizedFunctionEntryOfValue value s = (Err FatalError, push_log (EvHandleError d) s2) /\
    message d = ("Optimized Function Value " ++
                 (string_of_nat (startLine l) ++ ":" ++ string_of_nat (startColumn l) ++ " " ++
                  string_of_nat (endLine l) ++ ":" ++ string_of_nat (endLine l)) ++
                 " is an not a function or react element")%string /\
    location d = currentLocation s2 /\ errorCode d = "PP0033"%string /\
    severity d = FatalErrorSeverity.
Proof.
  exists (invalidEntryDiagnostic value s2).
  assert (Hv : match value with VAbstract _ _ => _unwrapAbstract value | _ => value end = value)
    by (destruct value; simpl in Hobj; congruence).
  unfold _optimizedFunctionEntryOfValue; rewrite Hv, Hobj.
  unfold invariant, bind at 1, ret at 1, bind at 1; rewrite Hc.
  unfold bind at 1; rewrite Hr, Hinvalid.
  split; [reflexivity|].
  unfold invalidEntryDiagnostic, locationText; simpl; rewrite Hloc.
  repeat split; reflexivity.
Qed.

(** X15. A registered abstract value that does not resolve to a single
    possible value (not counting empty and undefined) fails the object
    invariant of [_optimizedFunctionEntryOfValue]. No diagnostic is
    logged and the state is unchanged. *)
Theorem unresolved_abstract_entry_fails_invariant (id : nat) (els : option (list Elem)) (s : St)
  (Hamb : match els with
          | Some l => List.length (filter (fun e => match e with EEmpty | EUndefined => false | _ => true end) l) <> 1
          | None => True
          end) :
  _optimizedFunctionEntryOfValue (VAbstract id els) s = (Err InvariantViolation, s).
Proof.
  unfold _optimizedFunctionEntryOfValue, _unwrapAbstract.
  destruct els as [l|]; [|reflexivity].
  destruct (filter _ l) as [|e [|e' r]]; simpl in Hamb; [reflexivity|lia|reflexivity].
Qed.

End ReactProofs.

(** * Witnesses of the properties above *)


Lemma capture_tracer_ids_consecutive_witness :
  let s' := snd (captureOptimizedFunctions ex_program_c3 10 (initialState ex_registered_c3)) in
  fst (captureOptimizedFunctions ex_program_c3 10 (initialState ex_registered_c3)) = Ok tt /\
  optimizedFunctionId (initialState ex_registered_c3) <= optimizedFunctionId s' /\
  exists evs, log s' = log (initialState ex_registered_c3) ++ evs /\
    beginIds evs = seq (optimizedFunctionId (initialState ex_registered_c3))
                       (optimizedFunctionId s' - optimizedFunctionId (initialState ex_registered_c3)).
Proof.
  split; [vm_compute; reflexivity|].
  apply (capture_tracer_ids_consecutive ex_program_c3 10 (initialState ex_registered_c3));
    vm_compute; reflexivity.
Defined.


Lemma check_outcome_after_capture_witness :
  let s := initialState ex_registered_c3 in
  let s1 := snd (captureOptimizedFunctions ex_program_c3 10 s) in
  let fs := additionalFunctions s1 in
  let c := allResult ex_program_c3 (writeEffects s1) (heap s1) fs fs [] in
  writeEffects s = [] /\ fst (captureOptimizedFunctions ex_program_c3 10 s) = Ok tt /\
  exists s', checkThatFunctionsAreIndependent ex_program_c3 10 s =
    (match c with [] => Ok tt | _ :: _ => Err FatalError end, s') /\
    writeEffects s' = writeEffects s1 /\ heap s' = heap s /\
    log s' = log s1 ++ allEvents ex_program_c3 (writeEffects s1) (heap s1) fs fs ++
             map (fun kv => EvHandleError (snd kv)) c.
Proof.
  split; [reflexivity|]; split; [vm_compute; reflexivity|].
  apply (check_outcome_after_capture ex_program_c3 10 (initialState ex_registered_c3));
    vm_compute; reflexivity.
Defined.

Lemma verification_replays_each_ordered_pair_witness :
  forallb (wellFormedCandidate ex_program_c3 (writeEffects ex_state_c5))
          (additionalFunctions ex_state_c5) = true /\
  NoDup (additionalFunctions ex_state_c5) /\
  exists evs ds,
    log (snd (verifyIndependence ex_program_c3 mayTerminateAbruptlyAsWritten ex_state_c5)) =
      log ex_state_c5 ++ evs ++ map EvHandleError ds /\
    List.length evs = List.length (additionalFunctions ex_state_c5) *
                      (List.length (additionalFunctions ex_state_c5) - 1) /\
    forallb isReplay evs = true.
Proof.
  assert (Hnd : NoDup (additionalFunctions ex_state_c5))
    by (vm_compute; repeat constructor; simpl; lia).
  split; [vm_compute; reflexivity|]; split; [exact Hnd|].
  apply (verification_replays_each_ordered_pair ex_program_c3 ex_state_c5);
    [vm_compute; reflexivity|exact Hnd].
Defined.


Lemma verification_single_candidate_passes_witness :
  let s := snd (captureOptimizedFunctions ex_program_c3_single 10 (initialState [(VFun 1, None)])) in
  forallb (wellFormedCandidate ex_program_c3_single (writeEffects s)) (additionalFunctions s) = true /\
  List.length (additionalFunctions s) <= 1 /\
  fst (verifyIndependence ex_program_c3_single mayTerminateAbruptlyAsWritten s) = Ok tt /\
  log (snd (verifyIndependence ex_program_c3_single mayTerminateAbruptlyAsWritten s)) = log s.
Proof.
  split; [vm_compute; reflexivity|]; split; [vm_compute; lia|].
  apply verification_single_candidate_passes; [vm_compute; reflexivity|vm_compute; lia].
Defined.

Lemma nested_capture_restores_stack_witness :
  let s := set_additionalFunctionStack [5] (initialState []) in
  fst (recordWriteEffectsForOptimizedFunctionAndNestedFunctions ex_program_c2 10 1 None s) = Ok tt /\
  additionalFunctionStack
    (snd (recordWriteEffectsForOptimizedFunctionAndNestedFunctions ex_program_c2 10 1 None s)) =
  additionalFunctionStack s.
Proof.
  split; [vm_compute; reflexivity|].
  apply (nested_capture_restores_stack ex_program_c2 10 1 None
           (set_additionalFunctionStack [5] (initialState [])));
    vm_compute; reflexivity.
Defined.

Lemma entries_carry_config_witness :
  let run := _generateInitialAdditionalFunctions ex_program_c3 unit (ex_react_get VUndefined)
               ex_react_known ex_react_convert ex_react_currentLocation ex_react_sourceLocation
               ex_react_global ex_react_keys ex_react_property "__reactComponentTrees" (initialState []) in
  run = (Ok [mkAdditionalFunctionEntry (VFun 1) (Some tt) None;
             mkAdditionalFunctionEntry (VFun 1) (Some tt) None], initialState []) /\
  forall e, In e [mkAdditionalFunctionEntry (VFun 1) (Some tt) None;
                  mkAdditionalFunctionEntry (VFun 1) (Some tt) None] ->
    exists c, entryConfig e = Some c /\ entryArgModel e = None.
Proof.
  split; [vm_compute; reflexivity|].
  apply (entries_carry_config ex_program_c3 unit (ex_react_get VUndefined)
           ex_react_known ex_react_convert ex_react_currentLocation ex_react_sourceLocation
           ex_react_global ex_react_keys ex_react_property "__reactComponentTrees"
           (initialState []) (initialState [])).
  vm_compute; reflexivity.
Defined.

Lemma invalid_entry_reported_then_fatal_witness :
  let l := mkSourceLocation 3 4 5 6 in
  let s := initialState [] in
  exists d,
    _optimizedFunctionEntryOfValue ex_program_c3 unit (ex_react_get VEmpty) ex_react_known
      ex_react_convert ex_react_currentLocation ex_react_sourceLocation (VObject 7) s =
      (Err FatalError, push_log (EvHandleError d) s) /\
    message d = ("Optimized Function Value " ++
                 (string_of_nat (startLine l) ++ ":" ++ string_of_nat (startColumn l) ++ " " ++
                  string_of_nat (endLine l) ++ ":" ++ string_of_nat (endLine l)) ++
                 " is an not a function or react element")%string /\
    location d = ex_react_currentLocation s /\ errorCode d = "PP0033"%string /\
    severity d = FatalErrorSeverity.
Proof.
  apply (invalid_entry_reported_then_fatal ex_program_c3 unit (ex_react_get VEmpty) ex_react_known
           ex_react_convert ex_react_currentLocation ex_react_sourceLocation (VObject 7)
           (mkSourceLocation 3 4 5 6) (initialState []) (initialState []) (initialState [])
           VEmpty (VFun 1)); vm_compute; reflexivity.
Defined.

Lemma unresolved_abstract_entry_fails_invariant_witness :
  List.length (filter (fun e => match e with EEmpty | EUndefined => false | _ => true end)
                      [EFun 1; EUndefined; EFun 2]) <> 1 /\
  _optimizedFunctionEntryOfValue ex_program_c3 unit (ex_react_get VUndefined) ex_react_known
    ex_react_convert ex_react_currentLocation ex_react_sourceLocation
    (VAbstract 5 (Some [EFun 1; EUndefined; EFun 2])) (initialState []) =
  (Err InvariantViolation, initialState []).
Proof.
  split; [simpl; lia|].
  apply (unresolved_abstract_entry_fails_invariant ex_program_c3 unit (ex_react_get VUndefined)
           ex_react_known ex_react_convert ex_react_currentLocation ex_react_sourceLocation
           5 (Some [EFun 1; EUndefined; EFun 2]) (initialState [])).
  simpl; lia.
Defined.
